(** * tf-zk-backend: the ZooKeeper-backed state and lock store

    A shallow embedding of [state_store.go].  The five operations of
    [StateStore] ([Get], [Update], [Delete], [Lock], [Unlock]) are written
    as programs over the calls they make on a ZooKeeper session
    ([zk_Connect], [conn.Exists], [conn.Get], [conn.Create], [conn.Set_],
    [conn.Delete], [conn.Close]).  The programs are then run against a
    model of the coordination service, either one operation at a time
    ([run]) or several operations interleaved call by call ([run_sched]).

    Logging ([logrus]) has no influence on results or on the service and
    is left out. *)

From stdpp Require Import base option list gmap strings.
From Stdlib Require Import ZArith Strings.Byte Strings.Ascii.

Local Open Scope Z_scope.
Local Open Scope string_scope.

(** Go's [[]byte]. *)
Abbreviation bytes := (list Byte.byte).

#[global] Instance byte_eq_dec : EqDecision Byte.byte := Byte.byte_eq_dec.

(** ** The store's error sentinels ([var ( ErrConn = errors.New(...) ... )]).
    A Go [error] result is an [option error], [None] being [nil]. *)
Inductive error : Set :=
| ErrConn | ErrNotExist | ErrCreate | ErrUpdate | ErrDelete | ErrRead | ErrWrite.

#[global] Instance error_eq_dec : EqDecision error.
Proof. solve_decision. Defined.

(** ** The surface of [github.com/samuel/go-zookeeper/zk] the store uses *)
Module zk.

(** Failures of a call that are not an answer of the service about the
    node: the session is lost, no server is reachable, ... *)
Inductive fault : Set :=
| ConnectionClosed | SessionExpired | NoServer | AuthFailed | Unknown.

(** The library's error values.  [ErrNoNode], [ErrNodeExists] and
    [ErrBadVersion] are the service's answers about a node. *)
Inductive error : Set :=
| ErrNoNode
| ErrNodeExists
| ErrBadVersion
| ErrFault (f : fault).

#[global] Instance fault_eq_dec : EqDecision fault.
Proof. solve_decision. Defined.
#[global] Instance error_eq_dec : EqDecision error.
Proof. solve_decision. Defined.

(** [zk.Stat]; the store reads its [Version] field only. *)
Record Stat : Set := { Version : Z }.

#[global] Instance Stat_eq_dec : EqDecision Stat.
Proof. solve_decision. Defined.

(** The zero value a Go struct starts with. *)
Definition zeroStat : Stat := {| Version := 0 |}.

Record ACL : Set := { Perms : Z; Scheme : string; ID : string }.

(** [PermAll = 0x1f]. *)
Definition PermAll : Z := 31.

Definition WorldACL (perms : Z) : list ACL :=
  [ {| Perms := perms; Scheme := "world"; ID := "anyone" |} ].

End zk.

(** ** Programs over session calls

    One constructor per call of the library that [state_store.go] makes;
    the continuation receives what the Go call returns. *)
Inductive prog (R : Type) : Type :=
| Ret (r : R)
| Connect (servers : list string) (sessionTimeout : Z)
          (k : option zk.error → prog R)
| Close (k : prog R)
| Exists (path : string) (k : bool → zk.Stat → option zk.error → prog R)
| GetData (path : string) (k : bytes → zk.Stat → option zk.error → prog R)
| Create (path : string) (data : bytes) (flags : Z) (acl : list zk.ACL)
         (k : string → option zk.error → prog R)
| SetData (path : string) (data : bytes) (version : Z)
          (k : zk.Stat → option zk.error → prog R)
| DeleteNode (path : string) (version : Z) (k : option zk.error → prog R).

Arguments Ret {R} r.
Arguments Connect {R} servers sessionTimeout k.
Arguments Close {R} k.
Arguments Exists {R} path k.
Arguments GetData {R} path k.
Arguments Create {R} path data flags acl k.
Arguments SetData {R} path data version k.
Arguments DeleteNode {R} path version k.

Fixpoint bind {A B : Type} (p : prog A) (f : A → prog B) : prog B :=
  match p with
  | Ret r => f r
  | Connect zks t k => Connect zks t (λ e, bind (k e) f)
  | Close k => Close (bind k f)
  | Exists path k => Exists path (λ b s e, bind (k b s e) f)
  | GetData path k => GetData path (λ d s e, bind (k d s e) f)
  | Create path data flags acl k =>
      Create path data flags acl (λ s e, bind (k s e) f)
  | SetData path data version k =>
      SetData path data version (λ s e, bind (k s e) f)
  | DeleteNode path version k => DeleteNode path version (λ e, bind (k e) f)
  end.

#[global] Instance prog_ret : MRet prog := @Ret.
#[global] Instance prog_bind : MBind prog := λ A B f p, bind p f.

(** The calls, as the Go code writes them. *)
Definition zk_Connect (servers : list string) (sessionTimeout : Z)
    : prog (option zk.error) :=
  Connect servers sessionTimeout Ret.

(** [time.Second], a [time.Duration] in nanoseconds. *)
Definition time_Second : Z := 1000000000.

Module conn.
Definition Close : prog unit := Close (Ret ()).
Definition Exists (path : string) : prog (bool * zk.Stat * option zk.error) :=
  Exists path (λ b s e, Ret (b, s, e)).
Definition Get (path : string) : prog (bytes * zk.Stat * option zk.error) :=
  GetData path (λ d s e, Ret (d, s, e)).
Definition Create (path : string) (data : bytes) (flags : Z)
    (acl : list zk.ACL) : prog (string * option zk.error) :=
  Create path data flags acl (λ s e, Ret (s, e)).
Definition Set_ (path : string) (data : bytes) (version : Z)
    : prog (zk.Stat * option zk.error) :=
  SetData path data version (λ s e, Ret (s, e)).
Definition Delete (path : string) (version : Z) : prog (option zk.error) :=
  DeleteNode path version Ret.
End conn.

(** [defer c] in front of [body]: [c] runs when [body] returns, whatever
    it returns. *)
Definition defer {R : Type} (c : prog unit) (body : prog R) : prog R :=
  r ← body; c;; mret r.

(** ** [StateStore] *)
Record StateStore : Set := { Zks : list string }.

Section Store.
Variable store : StateStore.

Definition Get (name : string) : prog (bytes * option error) :=
  let znode := "/" +:+ name in
  err ← zk_Connect (Zks store) time_Second;
  match err with
  | Some _ => mret ([], Some ErrConn)
  | None =>
    defer conn.Close (
      '(data, _, err) ← conn.Get znode;
      match err with
      | None => mret (data, None)
      | Some zk.ErrNoNode => mret (data, Some ErrNotExist)
      | Some _ => mret (data, Some ErrRead)
      end)
  end.

Definition Update (name : string) (state : bytes) : prog (option error) :=
  let znode := "/" +:+ name in
  err ← zk_Connect (Zks store) time_Second;
  match err with
  | Some _ => mret (Some ErrConn)
  | None =>
    defer conn.Close (
      '(exists_, stat, err) ← conn.Exists znode;
      match err with
      | Some _ => mret (Some ErrRead)
      | None =>
        if negb exists_ then
          '(_, err) ← conn.Create znode state 0 (zk.WorldACL zk.PermAll);
          match err with
          | Some _ => mret (Some ErrCreate)
          | None => mret None
          end
        else
          '(_, err) ← conn.Set_ znode state (zk.Version stat);
          match err with
          | Some _ => mret (Some ErrUpdate)
          | None => mret None
          end
      end)
  end.

Definition Delete (name : string) : prog (option error) :=
  let znode := "/" +:+ name in
  err ← zk_Connect (Zks store) time_Second;
  match err with
  | Some _ => mret (Some ErrConn)
  | None =>
    defer conn.Close (
      '(exists_, stat, err) ← conn.Exists znode;
      match err with
      | Some _ => mret (Some ErrRead)
      | None =>
        if negb exists_ then mret (Some ErrNotExist)
        else
          err ← conn.Delete znode (zk.Version stat);
          match err with
          | Some _ => mret (Some ErrDelete)
          | None => mret None
          end
      end)
  end.

Definition Lock (name : string) (lockinfo : bytes)
    : prog (bool * bytes * option error) :=
  let znode := "/lock-" +:+ name in
  err ← zk_Connect (Zks store) time_Second;
  match err with
  | Some _ => mret (false, [] : bytes, Some ErrConn)
  | None =>
    defer conn.Close (
      '(exists_, _, err) ← conn.Exists znode;
      match err with
      | Some _ => mret (false, [] : bytes, Some ErrRead)
      | None =>
        if (exists_ : bool) then
          '(existingLock, _, err) ← conn.Get znode;
          match err with
          | Some _ => mret (false, [] : bytes, Some ErrRead)
          | None => mret (true, existingLock, None)
          end
        else
          '(_, err) ← conn.Create znode lockinfo 0 (zk.WorldACL zk.PermAll);
          match err with
          | Some _ => mret (false, [] : bytes, Some ErrCreate)
          | None => mret (false, lockinfo, None)
          end
      end)
  end.

Definition Unlock (name : string) : prog (option error) :=
  let znode := "/lock-" +:+ name in
  err ← zk_Connect (Zks store) time_Second;
  match err with
  | Some _ => mret (Some ErrConn)
  | None =>
    defer conn.Close (
      '(exists_, stat, err) ← conn.Exists znode;
      match err with
      | Some _ => mret (Some ErrRead)
      | None =>
        if negb exists_ then mret (Some ErrNotExist)
        else
          err ← conn.Delete znode (zk.Version stat);
          match err with
          | Some _ => mret (Some ErrDelete)
          | None => mret None
          end
      end)
  end.

End Store.

(** ** The coordination service *)

(** Modelled from the spec: the coordination service is ZooKeeper, which is
    not part of the repository.  Section 3: a node is "identified by a path
    string, holding a byte payload and a monotonically increasing
    non-negative version counter assigned by the service on every
    successful write". *)
Record Node : Set := { payload : bytes; version : Z }.

#[global] Instance Node_eq_dec : EqDecision Node.
Proof. solve_decision. Defined.

(** The node space: at most one node per path. *)
Abbreviation nodes := (gmap string Node).

(** Modelled from the spec: section 4.1, [connect(endpoints) → session |
    ErrConn]; it fails when the endpoints cannot be reached, which is a
    fault [f] of the environment. *)
Definition svc_connect (f : option zk.fault) : option zk.error :=
  zk.ErrFault <$> f.

(** Modelled from the spec: section 4.1, [exists(path) → (present,
    version?) | ErrRead].  As in the library, absence is an answer and not
    an error, and a failed call reports [true] next to its error. *)
Definition svc_exists (σ : nodes) (path : string) (f : option zk.fault)
    : bool * zk.Stat * option zk.error :=
  match f with
  | Some ft => (true, zk.zeroStat, Some (zk.ErrFault ft))
  | None =>
    match σ !! path with
    | Some n => (true, {| zk.Version := version n |}, None)
    | None => (false, zk.zeroStat, None)
    end
  end.

(** Modelled from the spec: section 4.1, [get(path) → (payload, version) |
    ErrNotExist | ErrRead], "ErrNotExist iff the service reports the path
    absent; any other failure is ErrRead". *)
Definition svc_get (σ : nodes) (path : string) (f : option zk.fault)
    : bytes * zk.Stat * option zk.error :=
  match f with
  | Some ft => ([], zk.zeroStat, Some (zk.ErrFault ft))
  | None =>
    match σ !! path with
    | Some n => (payload n, {| zk.Version := version n |}, None)
    | None => ([], zk.zeroStat, Some zk.ErrNoNode)
    end
  end.

(** Modelled from the spec: section 4.1, [create(path, payload) → version |
    ErrCreate], "fails if the path already exists"; a new node starts at
    version 0.  A call that fails leaves the node space as it was
    (section 7: "an operation either fully applies at the coordination
    service or is reported as failed"). *)
Definition svc_create (σ : nodes) (path : string) (data : bytes)
    (f : option zk.fault) : string * option zk.error * nodes :=
  match f with
  | Some ft => ("", Some (zk.ErrFault ft), σ)
  | None =>
    match σ !! path with
    | Some _ => ("", Some zk.ErrNodeExists, σ)
    | None => (path, None, <[path := {| payload := data; version := 0 |}]> σ)
    end
  end.

(** Modelled from the spec: section 4.1, [set(path, payload,
    expectedVersion) → newVersion | ErrUpdate], a "conditional write; fails
    if current version ≠ expectedVersion or for any other service error";
    a successful write moves the version up by one. *)
Definition svc_set (σ : nodes) (path : string) (data : bytes) (ver : Z)
    (f : option zk.fault) : zk.Stat * option zk.error * nodes :=
  match f with
  | Some ft => (zk.zeroStat, Some (zk.ErrFault ft), σ)
  | None =>
    match σ !! path with
    | None => (zk.zeroStat, Some zk.ErrNoNode, σ)
    | Some n =>
      if bool_decide (version n = ver) then
        ({| zk.Version := ver + 1 |}, None,
         <[path := {| payload := data; version := ver + 1 |}]> σ)
      else (zk.zeroStat, Some zk.ErrBadVersion, σ)
    end
  end.

(** Modelled from the spec: section 4.1, [delete(path, expectedVersion) →
    () | ErrDelete], fenced by the version like [set]. *)
Definition svc_delete (σ : nodes) (path : string) (ver : Z)
    (f : option zk.fault) : option zk.error * nodes :=
  match f with
  | Some ft => (Some (zk.ErrFault ft), σ)
  | None =>
    match σ !! path with
    | None => (Some zk.ErrNoNode, σ)
    | Some n =>
      if bool_decide (version n = ver) then (None, delete path σ)
      else (Some zk.ErrBadVersion, σ)
    end
  end.

(** ** Running programs against the service *)

(** What a program asked of the service, in order. *)
Inductive call : Set :=
| CallConnect (servers : list string)
| CallClose
| CallExists (path : string)
| CallGet (path : string)
| CallCreate (path : string) (data : bytes)
| CallSet (path : string) (data : bytes) (ver : Z)
| CallDelete (path : string) (ver : Z).

#[global] Instance call_eq_dec : EqDecision call.
Proof. solve_decision. Defined.

(** The calls that ask the service to change the node space. *)
Definition mutating (c : call) : bool :=
  match c with
  | CallCreate _ _ | CallSet _ _ _ | CallDelete _ _ => true
  | _ => false
  end.

(** The path a call is about. *)
Definition call_path (c : call) : option string :=
  match c with
  | CallConnect _ | CallClose => None
  | CallExists p | CallGet p | CallCreate p _ | CallSet p _ _
  | CallDelete p _ => Some p
  end.

(** A call together with the error the service answered ([None] is
    [nil]). *)
Abbreviation answered := (call * option zk.error)%type.

(** A call answered without error. *)
Definition ok (c : call) : answered := (c, None).

(** One call: the head call of [p] is answered by the service in node
    space [σ]; [f] says whether the environment makes this call fail.
    [conn.Close] returns nothing and cannot fail. *)
Definition step {R : Type} (p : prog R) (f : option zk.fault) (σ : nodes)
    : option (answered * prog R * nodes) :=
  match p with
  | Ret _ => None
  | Connect zks _ k =>
      let e := svc_connect f in
      Some ((CallConnect zks, e), k e, σ)
  | Close k => Some (ok CallClose, k, σ)
  | Exists path k =>
      let '(b, s, e) := svc_exists σ path f in
      Some ((CallExists path, e), k b s e, σ)
  | GetData path k =>
      let '(d, s, e) := svc_get σ path f in
      Some ((CallGet path, e), k d s e, σ)
  | Create path data _ _ k =>
      let '(s, e, σ') := svc_create σ path data f in
      Some ((CallCreate path data, e), k s e, σ')
  | SetData path data ver k =>
      let '(s, e, σ') := svc_set σ path data ver f in
      Some ((CallSet path data ver, e), k s e, σ')
  | DeleteNode path ver k =>
      let '(e, σ') := svc_delete σ path ver f in
      Some ((CallDelete path ver, e), k e, σ')
  end.

(** The result of a whole operation, the node space it leaves, and the
    calls it made with their answers. *)
Record outcome (R : Type) : Type :=
  { result : R; final : nodes; calls : list answered }.
Arguments result {R} o.
Arguments final {R} o.
Arguments calls {R} o.

Definition after {R : Type} (a : answered) (o : outcome R) : outcome R :=
  {| result := result o; final := final o; calls := a :: calls o |}.

(** A fault script says, call by call, whether the environment makes the
    call fail; past its end no call fails.  Every call takes one entry;
    the entry of a [conn.Close] is not looked at. *)
Abbreviation script := (list (option zk.fault)).

Definition fault_at (fs : script) : option zk.fault := default None (head fs).

(** One operation run alone on the service, from its first call to its
    return.  The recursion is on the program, so every run ends. *)
Fixpoint run {R : Type} (p : prog R) (fs : script) (σ : nodes) : outcome R :=
  match p with
  | Ret r => {| result := r; final := σ; calls := [] |}
  | Connect zks _ k =>
      let e := svc_connect (fault_at fs) in
      after (CallConnect zks, e) (run (k e) (tail fs) σ)
  | Close k => after (ok CallClose) (run k (tail fs) σ)
  | Exists path k =>
      let '(b, s, e) := svc_exists σ path (fault_at fs) in
      after (CallExists path, e) (run (k b s e) (tail fs) σ)
  | GetData path k =>
      let '(d, s, e) := svc_get σ path (fault_at fs) in
      after (CallGet path, e) (run (k d s e) (tail fs) σ)
  | Create path data _ _ k =>
      let '(s, e, σ') := svc_create σ path data (fault_at fs) in
      after (CallCreate path data, e) (run (k s e) (tail fs) σ')
  | SetData path data ver k =>
      let '(s, e, σ') := svc_set σ path data ver (fault_at fs) in
      after (CallSet path data ver, e) (run (k s e) (tail fs) σ')
  | DeleteNode path ver k =>
      let '(e, σ') := svc_delete σ path ver (fault_at fs) in
      after (CallDelete path ver, e) (run (k e) (tail fs) σ')
  end.

(** What a program can do whatever the service answers to its calls: the
    calls it makes, with the errors they were answered, and the result
    it returns. *)
Fixpoint may_run {R : Type} (p : prog R) (t : list answered) (r : R) : Prop :=
  match p with
  | Ret r' => t = [] ∧ r' = r
  | Connect zks _ k =>
      ∃ e t', t = (CallConnect zks, e) :: t' ∧ may_run (k e) t' r
  | Close k => ∃ t', t = ok CallClose :: t' ∧ may_run k t' r
  | Exists path k =>
      ∃ b s e t', t = (CallExists path, e) :: t' ∧ may_run (k b s e) t' r
  | GetData path k =>
      ∃ d s e t', t = (CallGet path, e) :: t' ∧ may_run (k d s e) t' r
  | Create path data _ _ k =>
      ∃ s e t', t = (CallCreate path data, e) :: t' ∧ may_run (k s e) t' r
  | SetData path data ver k =>
      ∃ s e t', t = (CallSet path data ver, e) :: t' ∧ may_run (k s e) t' r
  | DeleteNode path ver k =>
      ∃ e t', t = (CallDelete path ver, e) :: t' ∧ may_run (k e) t' r
  end.

(** The results a program can return, whatever the service answers. *)
Definition may_return {R : Type} (p : prog R) (r : R) : Prop :=
  ∃ t, may_run p t r.

(** The path scheme of the store. *)
Definition statePath (name : string) : string := "/" +:+ name.
Definition lockPath (name : string) : string := "/lock-" +:+ name.


(** ** The five operations as requests *)

(** One request to the store: an operation with its inputs. *)
Inductive op : Set :=
| OpGet (name : string)
| OpUpdate (name : string) (state : bytes)
| OpDelete (name : string)
| OpLock (name : string) (lockinfo : bytes)
| OpUnlock (name : string).

(** The operation a request stands for, reduced to the error it returns. *)
Definition perform (store : StateStore) (o : op) : prog (option error) :=
  match o with
  | OpGet name => '(_, err) ← Get store name; mret err
  | OpUpdate name state => Update store name state
  | OpDelete name => Delete store name
  | OpLock name lockinfo => '(_, _, err) ← Lock store name lockinfo; mret err
  | OpUnlock name => Unlock store name
  end.

(** How many of the calls asked the service for a change. *)
Definition writes (cs : list answered) : nat :=
  length (List.filter (λ a, mutating a.1) cs).

(** How many of them the service answered without error. *)
Definition applied (cs : list answered) : nat :=
  length (List.filter (λ a, mutating a.1 && bool_decide (a.2 = None)) cs).

(** * Several operations at once

    The store keeps no state of its own and takes no lock in the process:
    operations of different requests overlap, and what the service sees
    is some interleaving of their calls, each call being served at once. *)

(** The service and the operations under way, each with what it still has
    to do; an operation that returned [r] is [Ret r]. *)
Record config (R : Type) : Type := { svc : nodes; threads : list (prog R) }.
Arguments svc {R} c.
Arguments threads {R} c.

(** The operation [i] makes its next call (no call fails for reasons of
    its own here: what is studied is the race).  An operation that has
    returned, or an index that names none, leaves everything as it is. *)
Definition sched_step {R : Type} (c : config R) (i : nat) : config R :=
  match threads c !! i with
  | Some p =>
    match step p None (svc c) with
    | Some (_, p', σ') => {| svc := σ'; threads := <[i := p']> (threads c) |}
    | None => c
    end
  | None => c
  end.

(** A schedule names, call after call, the operation that moves. *)
Definition run_sched {R : Type} (sched : list nat) (c : config R) : config R :=
  foldl sched_step c sched.

(** What an operation returned, if it has. *)
Definition returned {R : Type} (p : prog R) : option R :=
  match p with
  | Ret r => Some r
  | _ => None
  end.

Definition results {R : Type} (c : config R) : list (option R) :=
  returned <$> threads c.

(** The call the operation [i] makes at its turn in [c], with its answer;
    none when the operation has returned or [i] names none. *)
Definition sched_event {R : Type} (c : config R) (i : nat)
    : list (nat * answered) :=
  match threads c !! i with
  | Some p =>
    match step p None (svc c) with
    | Some (a, _, _) => [(i, a)]
    | None => []
    end
  | None => []
  end.

(** The calls the service served along a schedule, in the order it served
    them, each with the operation that made it. *)
Fixpoint run_log {R : Type} (sched : list nat) (c : config R)
    : list (nat * answered) :=
  match sched with
  | [] => []
  | i :: rest => sched_event c i ++ run_log rest (sched_step c i)
  end.

(** [Lock(name, info_i)] for every [info_i], all started on node space [σ]. *)
Definition racing (store : StateStore) (name : string) (infos : list bytes)
    (σ : nodes) : config (bool * bytes * option error) :=
  {| svc := σ; threads := Lock store name <$> infos |}.

(** ** [Lock] call by call *)

Abbreviation lock_result := (bool * bytes * option error)%type.

(** Where a [Lock] under way stands: before [zk.Connect], before
    [conn.Exists], before [conn.Get] or [conn.Create] (depending on what
    the existence check answered), before the deferred [conn.Close] with
    its result decided, or returned. *)
Inductive lock_pc : Type :=
| PcStart
| PcConnected
| PcChecked (exists_ : bool)
| PcClosing (r : lock_result)
| PcReturned (r : lock_result).

Section LockPoints.
Variables (store : StateStore) (name : string) (lockinfo : bytes).

(** What is left of [Lock] once [zk.Connect] succeeded. *)
Definition Lock_connected : prog lock_result :=
  match Lock store name lockinfo with
  | Connect _ _ k => k None
  | p => p
  end.

(** What is left of it once [conn.Exists] answered [exists_]. *)
Definition Lock_checked (exists_ : bool) : prog lock_result :=
  match Lock_connected with
  | Exists _ k => k exists_ zk.zeroStat None
  | p => p
  end.

Definition at_pc (pc : lock_pc) : prog lock_result :=
  match pc with
  | PcStart => Lock store name lockinfo
  | PcConnected => Lock_connected
  | PcChecked b => Lock_checked b
  | PcClosing r => Close (Ret r)
  | PcReturned r => Ret r
  end.

(** The calls [Lock] still has to make. *)
Definition calls_left (pc : lock_pc) : nat :=
  match pc with
  | PcStart => 4
  | PcConnected => 3
  | PcChecked _ => 2
  | PcClosing _ => 1
  | PcReturned _ => 0
  end.

(** The move of a [Lock] at [pc] when the lock node is [lk]: where it
    stands next and what the lock node is next. *)
Definition pc_step (lk : option Node) (pc : lock_pc)
    : lock_pc * option Node :=
  match pc with
  | PcStart => (PcConnected, lk)
  | PcConnected => (PcChecked (bool_decide (is_Some lk)), lk)
  | PcChecked true =>
      (PcClosing match lk with
                 | Some n => (true, payload n, None)
                 | None => (false, [], Some ErrRead)
                 end, lk)
  | PcChecked false =>
      match lk with
      | None => (PcClosing (false, lockinfo, None),
                 Some {| payload := lockinfo; version := 0 |})
      | Some _ => (PcClosing (false, [], Some ErrCreate), lk)
      end
  | PcClosing r => (PcReturned r, lk)
  | PcReturned r => (PcReturned r, lk)
  end.

(** The call a [Lock] at [pc] makes when the lock node is [lk], with the
    answer of the service. *)
Definition pc_call (lk : option Node) (pc : lock_pc) : option answered :=
  match pc with
  | PcStart => Some (ok (CallConnect (Zks store)))
  | PcConnected => Some (ok (CallExists (lockPath name)))
  | PcChecked true =>
      Some (CallGet (lockPath name),
            match lk with Some _ => None | None => Some zk.ErrNoNode end)
  | PcChecked false =>
      Some (CallCreate (lockPath name) lockinfo,
            match lk with None => None | Some _ => Some zk.ErrNodeExists end)
  | PcClosing _ => Some (ok CallClose)
  | PcReturned _ => None
  end.
End LockPoints.

(** ** The race on one lock *)

Section LockRace.
Variables (store : StateStore) (name : string) (infos : list bytes).

(** [pcs] says where each of the racing calls stands in [c]. *)
Definition tracks (c : config lock_result) (pcs : list lock_pc) : Prop :=
  length (threads c) = length infos
  ∧ length pcs = length infos
  ∧ ∀ i info pc, infos !! i = Some info → pcs !! i = Some pc →
      threads c !! i = Some (at_pc store name info pc).

(** The existence check of the call [j] is entry [t] of the log. *)
Definition checked_at (log : list (nat * answered)) (j t : nat) : Prop :=
  log !! t = Some (j, ok (CallExists (lockPath name))).

(** While the lock node is absent: nobody is past its existence check
    with the answer "present", and nobody has a result. *)
Definition early (log : list (nat * answered)) (j : nat) (pc : lock_pc)
    : Prop :=
  pc = PcStart ∨ pc = PcConnected
  ∨ (pc = PcChecked false ∧ ∃ t, checked_at log j t).

(** The call that created the lock node. *)
Definition winner_at (info : bytes) (pc : lock_pc) : Prop :=
  pc = PcClosing (false, info, None) ∨ pc = PcReturned (false, info, None).

(** What a call other than the winner returns, its existence check being
    entry [tj] of the log and the winner's create entry [tw]: checked
    before the create, it was told "absent" and its own create is
    refused; checked after, it reads the winner's lockinfo. *)
Definition loser_result (info_w : bytes) (tj tw : nat) : lock_result :=
  if bool_decide (tj < tw)%nat then (false, [], Some ErrCreate)
  else (true, info_w, None).

(** Any other call [j], once the winner's create is entry [tw] of the
    log. *)
Definition loser_ok (log : list (nat * answered)) (j tw : nat)
    (info_w : bytes) (pc : lock_pc) : Prop :=
  match pc with
  | PcStart | PcConnected => True
  | PcChecked b =>
      ∃ tj, checked_at log j tj ∧ b = negb (bool_decide (tj < tw)%nat)
  | PcClosing r | PcReturned r =>
      ∃ tj, checked_at log j tj ∧ r = loser_result info_w tj tw
  end.

Definition race_ok (log : list (nat * answered)) (lk : option Node)
    (pcs : list lock_pc) : Prop :=
  match lk with
  | None => ∀ j pc, pcs !! j = Some pc → early log j pc
  | Some nd =>
      ∃ w info_w tw,
        infos !! w = Some info_w
        ∧ nd = {| payload := info_w; version := 0 |}
        ∧ log !! tw = Some (w, ok (CallCreate (lockPath name) info_w))
        ∧ (∃ pc, pcs !! w = Some pc ∧ winner_at info_w pc)
        ∧ ∀ j pc, j ≠ w → pcs !! j = Some pc → loser_ok log j tw info_w pc
  end.

(** Every time a call is scheduled it makes one of its four calls. *)
Definition progress_ok (sched : list nat) (pcs : list lock_pc) : Prop :=
  ∀ i pc, pcs !! i = Some pc →
    calls_left pc = (4 - count_occ Nat.eq_dec sched i)%nat.

(** The service granted the creation of the lock node to the call [k],
    with lockinfo [info], at entry [t] of the log. *)
Definition created_at (log : list (nat * answered)) (k : nat) (info : bytes)
    (t : nat) : Prop :=
  log !! t = Some (k, ok (CallCreate (lockPath name) info)).

(** The log holds one existence check for each call that is past it and
    none for the others, and one granted creation of the lock node once
    the node is there and none before. *)
Definition log_ok (log : list (nat * answered)) (lk : option Node)
    (pcs : list lock_pc) : Prop :=
  (∀ j pc, pcs !! j = Some pc →
     ((3 ≤ calls_left pc)%nat → ∀ t, ¬ checked_at log j t)
     ∧ ∀ t t', checked_at log j t → checked_at log j t' → t = t')
  ∧ (lk = None → ∀ k info t, ¬ created_at log k info t)
  ∧ ∀ k info t k' info' t',
      created_at log k info t → created_at log k' info' t' → t = t'.

Definition race_inv (sched : list nat) (log : list (nat * answered))
    (c : config lock_result) : Prop :=
  ∃ pcs, tracks c pcs
         ∧ race_ok log (svc c !! lockPath name) pcs
         ∧ progress_ok sched pcs
         ∧ log_ok log (svc c !! lockPath name) pcs.
End LockRace.

(** ** The lock record under the other operations *)

(** The claim C3 as it is written: whatever request is served while the
    lock record of [name] exists, the record, if still there afterwards,
    holds the payload it held before. *)
Definition lock_payload_never_overwritten : Prop :=
  ∀ (store : StateStore) (name : string) (o : op) (fs : script) (σ : nodes)
    (n n' : Node),
    σ !! lockPath name = Some n →
    final (run (perform store o) fs σ) !! lockPath name = Some n' →
    payload n' = payload n.

(** The claim C9 as it is written: of the racing calls, one returns
    [alreadyLocked = false] and every other one returns
    [alreadyLocked = true] with the lockinfo of that one. *)
Definition one_winner_rest_locked (infos : list bytes)
    (res : list (option lock_result)) : Prop :=
  ∃ w info_w,
    infos !! w = Some info_w
    ∧ (∃ out err, res !! w = Some (Some (false, out, err)))
    ∧ ∀ j, j ≠ w → (j < length infos)%nat →
        ∃ err, res !! j = Some (Some (true, info_w, err)).

Definition Lock_race_as_claimed : Prop :=
  ∀ (store : StateStore) (name : string) (infos : list bytes) (σ : nodes)
    (sched : list nat),
    σ !! lockPath name = None →
    infos ≠ [] →
    let c := run_sched sched (racing store name infos σ) in
    (∀ i p, threads c !! i = Some p → is_Some (returned p)) →
    one_winner_rest_locked infos (results c).

(** * The HTTP layer ([Server]) and [main] *)

(** The text of an error sentinel ([err.Error()]), from the [var] block of
    [state_store.go]. *)
Definition Error (e : error) : string :=
  match e with
  | ErrConn => "zk-terraform-backend: cannot connect to zk"
  | ErrNotExist => "zk-terraform-backend: cannot found znode"
  | ErrCreate => "zk-terraform-backend: cannot create znode"
  | ErrUpdate => "zk-terraform-backend: cannot update znode"
  | ErrDelete => "zk-terraform-backend: cannot delete znode"
  | ErrRead => "zk-terraform-backend: cannot read znode"
  | ErrWrite => "zk-terraform-backend: cannot write to znode"
  end.

(** The surface of [net/http] the handlers use. *)
Module http.

Definition StatusOK : Z := 200.
Definition StatusNoContent : Z := 204.
Definition StatusNotFound : Z := 404.
Definition StatusLocked : Z := 423.
Definition StatusInternalServerError : Z := 500.

(** What a handler does to its [http.ResponseWriter], call by call:
    [w.WriteHeader(code)], [w.Header().Set(key, value)], [w.Write(data)]. *)
Inductive wcall : Set :=
| WriteHeader (statusCode : Z)
| HeaderSet (key value : string)
| Write (data : bytes).

#[global] Instance wcall_eq_dec : EqDecision wcall.
Proof. solve_decision. Defined.

(** What a handler reads of its [*http.Request]: the [name] parameter of
    the route ([pat.Param(r, "name")]) and the body, [None] when reading
    it fails ([io.Copy(buf, r.Body)] returns an error). *)
Record Request : Set := { Param_name : string; Body : option bytes }.

End http.

(** [fmt.Fprintf(w, format)] without arguments: one [w.Write] of the
    format, which is written as it is when it holds no [%] (see
    [Error_has_no_verb]). *)
Definition fmt_Fprintf (format : string) : list http.wcall :=
  [http.Write (String.list_byte_of_string format)].

(** Go's [switch err { case e1, e2: ...; case e3: ...; case nil: ... }] on
    an error value: the cases are tried in order and the first one that
    lists the error is taken; when none does, nothing is done.  [first_case]
    tries the cases of sentinels. *)
Fixpoint first_case {A : Type} (e : error)
    (cases : list (list error * (error → A))) : option A :=
  match cases with
  | [] => None
  | (vals, body) :: rest =>
      if bool_decide (e ∈ vals) then Some (body e) else first_case e rest
  end.

Definition switch_err {A : Type} (err : option error)
    (cases : list (list error * (error → A))) (case_nil : A) (no_case : A)
    : A :=
  match err with
  | None => case_nil
  | Some e => default no_case (first_case e cases)
  end.

(** [type Server struct { store *StateStore }]. *)
Record Server : Set := { store : StateStore }.

(** [NewServer]; the logger and its setup are left out. *)
Definition NewServer (zks : list string) : Server :=
  {| store := {| Zks := zks |} |}.

(** The handlers.  Each returns the calls it makes on its
    [http.ResponseWriter], in order; they come after the store operation
    has returned.  The deferred [r.Body.Close()] and the logging touch
    neither the response nor the service and are left out. *)
Section Handlers.
Variable s : Server.

Definition Server_Get (r : http.Request) : prog (list http.wcall) :=
  '(state, err) ← Get (store s) (http.Param_name r);
  mret (switch_err err
    [ ([ErrConn; ErrRead], λ err,
         http.WriteHeader http.StatusInternalServerError
         :: fmt_Fprintf (Error err));
      ([ErrNotExist], λ err,
         http.WriteHeader http.StatusNotFound :: fmt_Fprintf (Error err)) ]
    [ http.WriteHeader http.StatusOK;
      http.HeaderSet "Content-Type" "application/json";
      http.Write state ]
    []).

Definition Server_Update (r : http.Request) : prog (list http.wcall) :=
  let name := http.Param_name r in
  match http.Body r with
  | None => mret [http.WriteHeader http.StatusInternalServerError]
  | Some state =>
    err ← Update (store s) name state;
    mret (switch_err err
      [ ([ErrConn; ErrRead; ErrCreate; ErrWrite], λ err,
           http.WriteHeader http.StatusInternalServerError
           :: fmt_Fprintf (Error err)) ]
      [ http.WriteHeader http.StatusNoContent ]
      [])
  end.

Definition Server_Delete (r : http.Request) : prog (list http.wcall) :=
  err ← Delete (store s) (http.Param_name r);
  mret (switch_err err
    [ ([ErrConn; ErrNotExist; ErrDelete], λ err,
         http.WriteHeader http.StatusInternalServerError
         :: fmt_Fprintf (Error err));
      ([ErrNotExist], λ err,
         http.WriteHeader http.StatusNotFound :: fmt_Fprintf (Error err)) ]
    [ http.WriteHeader http.StatusOK ]
    []).

Definition Server_Lock (r : http.Request) : prog (list http.wcall) :=
  let name := http.Param_name r in
  match http.Body r with
  | None => mret [http.WriteHeader http.StatusInternalServerError]
  | Some lockinfo =>
    '(alreadyLocked, returnedLockinfo, err) ← Lock (store s) name lockinfo;
    mret (switch_err err
      [ ([ErrConn; ErrRead; ErrCreate], λ err,
           http.WriteHeader http.StatusInternalServerError
           :: fmt_Fprintf (Error err)) ]
      [ (if (alreadyLocked : bool)
         then http.WriteHeader http.StatusLocked
         else http.WriteHeader http.StatusOK);
        http.HeaderSet "Content-Type" "application/json";
        http.Write returnedLockinfo ]
      [])
  end.

Definition Server_Unlock (r : http.Request) : prog (list http.wcall) :=
  err ← Unlock (store s) (http.Param_name r);
  mret (switch_err err
    [ ([ErrConn; ErrNotExist; ErrDelete], λ err,
         http.WriteHeader http.StatusInternalServerError
         :: fmt_Fprintf (Error err));
      ([ErrNotExist], λ err,
         http.WriteHeader http.StatusNotFound :: fmt_Fprintf (Error err)) ]
    [ http.WriteHeader http.StatusOK ]
    []).

End Handlers.

(** The status a handler wrote first, if it wrote one, and the bytes it
    wrote as body. *)
Definition status_written (ws : list http.wcall) : option Z :=
  match ws with
  | http.WriteHeader code :: _ => Some code
  | _ => None
  end.

Fixpoint body_written (ws : list http.wcall) : bytes :=
  match ws with
  | [] => []
  | http.Write data :: ws' => data ++ body_written ws'
  | _ :: ws' => body_written ws'
  end.

(** No [w.Header().Set] comes before the first [w.WriteHeader] or
    [w.Write]. *)
Fixpoint headers_first (ws : list http.wcall) : bool :=
  match ws with
  | [] => true
  | http.HeaderSet _ _ :: ws' => headers_first ws'
  | _ :: ws' => forallb (λ c, match c with
                              | http.HeaderSet _ _ => false
                              | _ => true
                              end) ws'
  end.

(** The node a request to the store is about. *)
Definition op_path (o : op) : string :=
  match o with
  | OpGet name | OpUpdate name _ | OpDelete name => statePath name
  | OpLock name _ | OpUnlock name => lockPath name
  end.

(** ** [main]: the endpoints from the environment *)

(** [strings.Split(s, sep)] for a separator of one byte: the pieces of
    [s] between the separators, in order; a string without separator is
    its only piece. *)
Fixpoint strings_Split (s : string) (sep : Ascii.ascii) : list string :=
  match s with
  | EmptyString => [EmptyString]
  | String c s' =>
      if Ascii.eqb c sep then EmptyString :: strings_Split s' sep
      else match strings_Split s' sep with
           | piece :: pieces => String c piece :: pieces
           | [] => [String c EmptyString]
           end
  end.

(** The server list [main] builds from the value [zksStr] of [ZKS]: the
    loop over the pieces appends those that are not empty; the copy into
    [zks] keeps the list. *)
Definition main_zks (zksStr : string) : list string :=
  let zksList :=
    foldl (λ (zksList : list string) (zk : string),
             if bool_decide (zk ≠ "") then (zksList ++ [zk])%list
             else zksList)
          [] (strings_Split zksStr ","%char) in
  zksList.

(** The server [main] starts. *)
Definition main_server (zksStr : string) : Server :=
  NewServer (main_zks zksStr).

(** ** Concurrent [Lock]s on a lock that is held *)

(** Where a [Lock] can stand while the lock node [nd] stays in place: it
    has not yet asked, or it was told the node is present, or it has read
    the node. *)
Definition reader_at (nd : Node) (pc : lock_pc) : Prop :=
  pc = PcStart ∨ pc = PcConnected ∨ pc = PcChecked true
  ∨ pc = PcClosing (true, payload nd, None)
  ∨ pc = PcReturned (true, payload nd, None).

Definition held_inv (store : StateStore) (name : string)
    (infos : list bytes) (σ : nodes) (nd : Node) (sched : list nat)
    (c : config lock_result) : Prop :=
  ∃ pcs, tracks store name infos c pcs
         ∧ svc c = σ
         ∧ (∀ i pc, pcs !! i = Some pc → reader_at nd pc)
         ∧ progress_ok sched pcs.

(** Sample inputs for the instances below. *)
Definition zks0 : StateStore := {| Zks := ["127.0.0.1:2181"] |}.
Definition infoA : bytes := [Byte.x41].
Definition infoB : bytes := [Byte.x42].
Definition held (name : string) (info : bytes) : nodes :=
  {[ lockPath name := {| payload := info; version := 0 |} ]}.

(** * Proofs *)

(** Case analysis over a run: which calls fail, whether the node is there,
    whether the version matches. *)
Ltac run_cases :=
  repeat (cbn in *;
    match goal with
    | |- context [fault_at ?fs] => destruct (fault_at fs) eqn:?
    | |- context [@lookup _ _ (gmap string Node) _ ?k ?s] =>
        is_var s; destruct (s !! k) eqn:?
    | |- context [bool_decide ?P] => case_bool_decide
    end);
  cbn in *.

(** Case analysis over the results a program can return. *)
Ltac returns_cases :=
  repeat (cbn in *;
    match goal with
    | H : ∃ _, _ |- _ => destruct H
    | H : _ ∧ _ |- _ => destruct H
    | H : may_run ?p _ _ |- _ =>
        match p with
        | context [match ?e with _ => _ end] => is_var e; destruct e
        | context [negb ?b] => is_var b; destruct b
        end
    end);
  cbn in *.

(** Which call of a written-out trace an answered call is. *)
Ltac trace_cases H :=
  unfold ok in H;
  rewrite ?elem_of_cons, ?elem_of_nil in H;
  repeat match type of H with
         | _ ∨ _ => destruct H as [H|H]
         end;
  simplify_eq.

(** A run is a sequence of single calls. *)
Lemma run_step {R : Type} (p : prog R) (fs : script) (σ : nodes) :
  match step p (fault_at fs) σ with
  | Some (c, p', σ') => run p fs σ = after c (run p' (tail fs) σ')
  | None => ∃ r, p = Ret r
                 ∧ run p fs σ = {| result := r; final := σ; calls := [] |}
  end.
Proof.
  destruct p; cbn; try done.
  - by eexists.
  - by destruct (svc_exists _ _ _) as [[? ?] ?].
  - by destruct (svc_get _ _ _) as [[? ?] ?].
  - by destruct (svc_create _ _ _ _) as [[? ?] ?].
  - by destruct (svc_set _ _ _ _ _) as [[? ?] ?].
  - by destruct (svc_delete _ _ _ _) as [? ?].
Qed.

(** What a run does is something the program can do. *)
Lemma run_may_run {R : Type} (p : prog R) (fs : script) (σ : nodes) :
  may_run p (calls (run p fs σ)) (result (run p fs σ)).
Proof.
  revert fs σ. induction p as [r|zks t k IH|k IH|path k IH|path k IH
    |path data flags acl k IH|path data ver k IH|path ver k IH];
    intros fs σ; cbn.
  - done.
  - eexists _, _. split; [done|]. apply IH.
  - eexists. split; [done|]. apply IH.
  - destruct (svc_exists _ _ _) as [[b s] e].
    exists b, s, e. eexists. split; [done|]. apply IH.
  - destruct (svc_get _ _ _) as [[d s] e].
    exists d, s, e. eexists. split; [done|]. apply IH.
  - destruct (svc_create _ _ _ _) as [[s e] σ'].
    exists s, e. eexists. split; [done|]. apply IH.
  - destruct (svc_set _ _ _ _ _) as [[s e] σ'].
    exists s, e. eexists. split; [done|]. apply IH.
  - destruct (svc_delete _ _ _ _) as [e σ'].
    exists e. eexists. split; [done|]. apply IH.
Qed.

Lemma run_may_return {R : Type} (p : prog R) (fs : script) (σ : nodes) :
  may_return p (result (run p fs σ)).
Proof. eexists. apply run_may_run. Qed.

(** So is one call followed by something the rest can do: this covers
    operations whose calls are interleaved with those of others. *)
Lemma step_may_run {R : Type} (p p' : prog R) (f : option zk.fault)
    (σ σ' : nodes) (a : answered) (t : list answered) (r : R) :
  step p f σ = Some (a, p', σ') → may_run p' t r → may_run p (a :: t) r.
Proof.
  destruct p; cbn; intros Hs Hr; try done.
  - simplify_eq. eauto.
  - simplify_eq. eauto.
  - destruct (svc_exists _ _ _) as [[? ?] ?]. simplify_eq. eauto 6.
  - destruct (svc_get _ _ _) as [[? ?] ?]. simplify_eq. eauto 6.
  - destruct (svc_create _ _ _ _) as [[? ?] ?]. simplify_eq. eauto 6.
  - destruct (svc_set _ _ _ _ _) as [[? ?] ?]. simplify_eq. eauto 6.
  - destruct (svc_delete _ _ _ _) as [? ?]. simplify_eq. eauto.
Qed.

(** In an interleaving too, what an operation goes on to return is a
    result it could return from its start. *)
Lemma run_sched_may_return {R : Type} (sched : list nat) (c : config R)
    (i : nat) (p : prog R) (r : R) :
  threads (run_sched sched c) !! i = Some p → may_return p r →
  ∃ p0, threads c !! i = Some p0 ∧ may_return p0 r.
Proof.
  revert c p. induction sched as [|j sched IH]; intros c p Hp Hr; [by eauto|].
  destruct (IH (sched_step c j) p Hp Hr) as (p1 & Hp1 & Hr1).
  unfold sched_step in Hp1.
  destruct (threads c !! j) as [pj|] eqn:Hj; [|by eauto].
  destruct (step pj None (svc c)) as [[[a p'] σ']|] eqn:Hs; [|by eauto].
  cbn in Hp1. destruct (decide (j = i)) as [->|Hne].
  - rewrite list_lookup_insert_eq in Hp1 by by eapply lookup_lt_Some.
    simplify_eq. exists pj. split; [done|].
    destruct Hr1 as [t Ht]. eexists. by eapply step_may_run.
  - rewrite list_lookup_insert_ne in Hp1 by done. eauto.
Qed.

(** On the service, a run none of whose changes was accepted leaves the
    node space as it was. *)
Lemma run_unapplied {R : Type} (p : prog R) (fs : script) (σ : nodes) :
  applied (calls (run p fs σ)) = 0%nat → final (run p fs σ) = σ.
Proof.
  revert fs σ. induction p as [r|zks t k IH|k IH|path k IH|path k IH
    |path data flags acl k IH|path data ver k IH|path ver k IH];
    intros fs σ; cbn.
  - done.
  - apply IH.
  - apply IH.
  - destruct (svc_exists _ _ _) as [[b s] e]. apply IH.
  - destruct (svc_get _ _ _) as [[d s] e]. apply IH.
  - unfold svc_create.
    destruct (fault_at fs), (σ !! path); cbn; try apply IH. done.
  - unfold svc_set.
    destruct (fault_at fs), (σ !! path); cbn; try apply IH.
    case_bool_decide; cbn; [done | apply IH].
  - unfold svc_delete.
    destruct (fault_at fs), (σ !! path); cbn; try apply IH.
    case_bool_decide; cbn; [done | apply IH].
Qed.

Lemma append_length (a b : string) :
  String.length (a +:+ b) = (String.length a + String.length b)%nat.
Proof.
  induction a as [|c a IH]; [done|].
  change (String c a +:+ b) with (String c (a +:+ b)).
  simpl. by rewrite IH.
Qed.

Lemma statePath_ne_lockPath (name : string) : statePath name ≠ lockPath name.
Proof.
  unfold statePath, lockPath. intros H.
  apply (f_equal String.length) in H.
  rewrite !append_length in H. simpl in H. lia.
Qed.

(** The lock path of [name] is the state path of the name ["lock-" ++ name]. *)
Lemma lockPath_as_statePath (name : string) :
  lockPath name = statePath ("lock-" +:+ name).
Proof. reflexivity. Qed.

(** C1.  [Lock] on a name whose lock node is present makes no write and
    returns [alreadyLocked = true] with the payload stored in the node,
    whatever [lockinfo] the caller passed; on a name whose lock node is
    absent it creates the node with the caller's [lockinfo] and returns
    [(false, lockinfo)], and it returns [ErrCreate] when the creation
    fails: whatever the service answers, a create that [Lock] asks for is
    a create of the lock node with the caller's [lockinfo], and [Lock]
    returns [(false, [], ErrCreate)] when it is answered an error, of
    whatever kind, and [(false, lockinfo, nil)] when it is not.
    (Connecting, the existence check and the read are taken to succeed;
    their failures are the subject of C10.) *)
Theorem Lock_reads_existing_or_creates
    (store : StateStore) (name : string) (lockinfo : bytes) (σ : nodes)
    (rest : script) :
  let znode := lockPath name in
  (∀ n, σ !! znode = Some n →
     let o := run (Lock store name lockinfo) (None :: None :: None :: rest) σ in
     result o = (true, payload n, None) ∧ final o = σ ∧ writes (calls o) = 0%nat)
  ∧ (σ !! znode = None →
     let o := run (Lock store name lockinfo) (None :: None :: None :: rest) σ in
     result o = (false, lockinfo, None) ∧
     final o = <[znode := {| payload := lockinfo; version := 0 |}]> σ ∧
     calls o = [ok (CallConnect (Zks store)); ok (CallExists znode);
                ok (CallCreate znode lockinfo); ok CallClose])
  ∧ (σ !! znode = None → ∀ ft,
     let o := run (Lock store name lockinfo)
                  (None :: None :: Some ft :: rest) σ in
     result o = (false, [], Some ErrCreate))
  ∧ (∀ t r, may_run (Lock store name lockinfo) t r →
     ∀ path data e, (CallCreate path data, e) ∈ t →
       path = znode ∧ data = lockinfo
       ∧ r = match e with
             | Some _ => (false, [], Some ErrCreate)
             | None => (false, lockinfo, None)
             end).
Proof.
  intros znode. subst znode. unfold Lock, defer, lockPath.
  split; [|split; [|split]].
  - intros n Hn. run_cases; by simplify_eq.
  - intros Hn. run_cases; by simplify_eq.
  - intros Hn ft. run_cases; by simplify_eq.
  - intros t r Hr path data e Hin.
    returns_cases; simplify_eq; by trace_cases Hin.
Qed.

(** A run of [Lock] in which the service refuses the create because the
    node exists, as it does for the loser of a race. *)
Lemma Lock_refused_create :
  may_run (Lock zks0 "tf" infoB)
    [ok (CallConnect (Zks zks0)); ok (CallExists "/lock-tf");
     (CallCreate "/lock-tf" infoB, Some zk.ErrNodeExists); ok CallClose]
    (false, [], Some ErrCreate).
Proof.
  unfold Lock, defer. cbn.
  exists None. eexists. split; [done|].
  exists false, zk.zeroStat, None. eexists. split; [done|].
  exists "", (Some zk.ErrNodeExists). eexists. split; [done|].
  eexists. split; [done|]. done.
Qed.

Lemma Lock_reads_existing_or_creates_witness :
  result (run (Lock zks0 "tf" infoB) [None; None; None] (held "tf" infoA))
    = (true, infoA, None)
  ∧ final (run (Lock zks0 "tf" infoA) [None; None; None] ∅) = held "tf" infoA
  ∧ result (run (Lock zks0 "tf" infoA) [None; None; Some zk.NoServer] ∅)
    = (false, [], Some ErrCreate)
  ∧ ("/lock-tf" = lockPath "tf" ∧ infoB = infoB
     ∧ (false, [], Some ErrCreate)
       = ((false, [], Some ErrCreate) : bool * bytes * option error)).
Proof.
  split; [|split; [|split]].
  - destruct (Lock_reads_existing_or_creates zks0 "tf" infoB
                (held "tf" infoA) []) as [H _].
    apply (H {| payload := infoA; version := 0 |}). reflexivity.
  - destruct (Lock_reads_existing_or_creates zks0 "tf" infoA ∅ [])
      as (_ & H & _).
    apply H. reflexivity.
  - destruct (Lock_reads_existing_or_creates zks0 "tf" infoA ∅ [])
      as (_ & _ & H & _).
    apply H. reflexivity.
  - destruct (Lock_reads_existing_or_creates zks0 "tf" infoB ∅ [])
      as (_ & _ & _ & H).
    apply (H _ _ Lock_refused_create "/lock-tf" infoB (Some zk.ErrNodeExists)).
    apply list_elem_of_further, list_elem_of_further, list_elem_of_here.
Defined.

(** C2.  [Update] is check-then-act: it connects, checks whether
    ["/" + name] exists, and then either creates the node (absent) or
    sets it with the version the check returned (present).  It returns
    [nil] when the write succeeds, [ErrCreate] when the creation fails,
    [ErrUpdate] when the set fails, [ErrRead] when the check fails, and
    never [ErrNotExist].  The results hold whatever the service answers:
    a create or set that [Update] asks for is for ["/" + name] with the
    given state, and [Update] returns [ErrCreate], respectively
    [ErrUpdate], when it is answered an error of whatever kind (a fault,
    a node that exists already, a version that has moved, a node that
    is gone) and [nil] when it is not; an existence check answered an
    error gives [ErrRead], a connect answered an error [ErrConn]. *)
Theorem Update_check_then_act
    (store : StateStore) (name : string) (state : bytes) (σ : nodes) :
  let znode := statePath name in
  let U := λ fs, run (Update store name state) fs σ in
  (∀ fw rest, σ !! znode = None →
     calls (U (None :: None :: fw :: rest))
       = [ok (CallConnect (Zks store)); ok (CallExists znode);
          (CallCreate znode state, zk.ErrFault <$> fw); ok CallClose]
     ∧ result (U (None :: None :: fw :: rest))
       = match fw with Some _ => Some ErrCreate | None => None end)
  ∧ (∀ n fw rest, σ !! znode = Some n →
     calls (U (None :: None :: fw :: rest))
       = [ok (CallConnect (Zks store)); ok (CallExists znode);
          (CallSet znode state (version n), zk.ErrFault <$> fw);
          ok CallClose]
     ∧ result (U (None :: None :: fw :: rest))
       = match fw with Some _ => Some ErrUpdate | None => None end)
  ∧ (∀ ft rest,
     calls (U (None :: Some ft :: rest))
       = [ok (CallConnect (Zks store));
          (CallExists znode, Some (zk.ErrFault ft)); ok CallClose]
     ∧ result (U (None :: Some ft :: rest)) = Some ErrRead)
  ∧ (∀ r, may_return (Update store name state) r → r ≠ Some ErrNotExist)
  ∧ (∀ t r, may_run (Update store name state) t r →
     (∀ path data e, (CallCreate path data, e) ∈ t →
        path = znode ∧ data = state
        ∧ r = match e with Some _ => Some ErrCreate | None => None end)
     ∧ (∀ path data ver e, (CallSet path data ver, e) ∈ t →
        path = znode ∧ data = state
        ∧ r = match e with Some _ => Some ErrUpdate | None => None end)
     ∧ (∀ path e, (CallExists path, Some e) ∈ t → r = Some ErrRead)
     ∧ (∀ zks e, (CallConnect zks, Some e) ∈ t → r = Some ErrConn)
     ∧ (r = None →
        ∃ path data e, (CallCreate path data, e) ∈ t
                       ∨ ∃ ver, (CallSet path data ver, e) ∈ t)).
Proof.
  intros znode U. subst znode U. unfold Update, defer, statePath.
  split; [|split; [|split; [|split]]].
  - intros fw rest Hn. destruct fw; run_cases; by simplify_eq.
  - intros n fw rest Hn. destruct fw; run_cases; by simplify_eq.
  - intros ft rest. by run_cases.
  - intros r [t Hr]. returns_cases; by simplify_eq.
  - intros t r Hr.
    returns_cases; simplify_eq; repeat apply conj;
      try (intros ???? Hin; by trace_cases Hin);
      try (intros ??? Hin; by trace_cases Hin);
      try (intros ?? Hin; by trace_cases Hin);
      try done;
      intros _; eexists _, _, _;
      eauto 8 using list_elem_of_here, list_elem_of_further.
Qed.

(** Runs of [Update] in which the service refuses the write: the create
    because the node exists already, the set because the version has
    moved. *)
Lemma Update_refused_create :
  may_run (Update zks0 "tf" infoB)
    [ok (CallConnect (Zks zks0)); ok (CallExists "/tf");
     (CallCreate "/tf" infoB, Some zk.ErrNodeExists); ok CallClose]
    (Some ErrCreate).
Proof.
  unfold Update, defer. cbn.
  exists None. eexists. split; [done|].
  exists false, zk.zeroStat, None. eexists. split; [done|].
  exists "", (Some zk.ErrNodeExists). eexists. split; [done|].
  eexists. split; [done|]. done.
Qed.

Lemma Update_refused_set :
  may_run (Update zks0 "tf" infoB)
    [ok (CallConnect (Zks zks0)); ok (CallExists "/tf");
     (CallSet "/tf" infoB 3, Some zk.ErrBadVersion); ok CallClose]
    (Some ErrUpdate).
Proof.
  unfold Update, defer. cbn.
  exists None. eexists. split; [done|].
  exists true, {| zk.Version := 3 |}, None. eexists. split; [done|].
  exists zk.zeroStat, (Some zk.ErrBadVersion). eexists. split; [done|].
  eexists. split; [done|]. done.
Qed.

Lemma Update_check_then_act_witness :
  calls (run (Update zks0 "tf" infoA) [None; None; None] ∅)
    = [ok (CallConnect (Zks zks0)); ok (CallExists "/tf");
       ok (CallCreate "/tf" infoA); ok CallClose]
  ∧ calls (run (Update zks0 "tf" infoB) [None; None; None]
             {[ "/tf" := {| payload := infoA; version := 4 |} ]})
    = [ok (CallConnect (Zks zks0)); ok (CallExists "/tf");
       ok (CallSet "/tf" infoB 4); ok CallClose]
  ∧ ("/tf" = statePath "tf" ∧ infoB = infoB
     ∧ Some ErrCreate = (Some ErrCreate : option error))
  ∧ ("/tf" = statePath "tf" ∧ infoB = infoB
     ∧ Some ErrUpdate = (Some ErrUpdate : option error)).
Proof.
  split; [|split; [|split]].
  3: { destruct (Update_check_then_act zks0 "tf" infoB ∅)
         as (_ & _ & _ & _ & H).
       destruct (H _ _ Update_refused_create) as (Hc & _).
       apply (Hc "/tf" infoB (Some zk.ErrNodeExists)).
       apply list_elem_of_further, list_elem_of_further,
         list_elem_of_here. }
  3: { destruct (Update_check_then_act zks0 "tf" infoB ∅)
         as (_ & _ & _ & _ & H).
       destruct (H _ _ Update_refused_set) as (_ & Hs & _).
       apply (Hs "/tf" infoB 3 (Some zk.ErrBadVersion)).
       apply list_elem_of_further, list_elem_of_further,
         list_elem_of_here. }
  - destruct (Update_check_then_act zks0 "tf" infoA ∅) as [H _].
    apply (H None []). reflexivity.
  - destruct (Update_check_then_act zks0 "tf" infoB
                {[ "/tf" := {| payload := infoA; version := 4 |} ]})
      as (_ & H & _).
    apply (H {| payload := infoA; version := 4 |} None []). reflexivity.
Defined.

(** A set can fail without any fault of the environment: two [Update]s
    of an existing state record take turns, both are told version 3, the
    first set moves the node to version 4 and the second, fenced by
    version 3, is refused. *)
Lemma Update_race_loser_gets_ErrUpdate :
  results (run_sched [0; 1; 0; 1; 0; 1; 0; 1]%nat
             {| svc := {[ "/tf" := {| payload := infoA; version := 3 |} ]};
                threads := [Update zks0 "tf" infoA; Update zks0 "tf" infoB] |})
    = [Some None; Some (Some ErrUpdate)].
Proof. reflexivity. Qed.

(** What [Update] leaves behind when it succeeds: the node holds the new
    state. *)
Lemma Update_success_stores
    (store : StateStore) (name : string) (state : bytes) (fs : script)
    (σ : nodes) :
  result (run (Update store name state) fs σ) = None →
  ∃ v, final (run (Update store name state) fs σ) !! statePath name
       = Some {| payload := state; version := v |}.
Proof.
  unfold Update, defer, statePath.
  run_cases; intros; simplify_eq; eexists; by rewrite lookup_insert_eq.
Qed.

(** C4.  A successful [Update(name, payload)] followed at once by
    [Get(name)] returns exactly [payload]: the list of bytes that was
    passed in, with a [nil] error. *)
Theorem Update_then_Get_roundtrip
    (store : StateStore) (name : string) (state : bytes) (fs rest : script)
    (σ : nodes) :
  result (run (Update store name state) fs σ) = None →
  result (run (Get store name) (None :: None :: rest)
              (final (run (Update store name state) fs σ)))
    = (state, None).
Proof.
  intros Hok. destruct (Update_success_stores _ _ _ _ _ Hok) as [v Hv].
  revert Hv. generalize (final (run (Update store name state) fs σ)).
  intros σ' Hv. unfold Get, defer, statePath in *.
  run_cases; by simplify_eq.
Qed.

Lemma Update_then_Get_roundtrip_witness :
  result (run (Get zks0 "tf") [None; None]
              (final (run (Update zks0 "tf" infoA) [] ∅)))
    = (infoA, None).
Proof. apply (Update_then_Get_roundtrip zks0 "tf" infoA [] [] ∅). reflexivity. Defined.

Lemma svc_get_absent (σ : nodes) (path : string) (f : option zk.fault) :
  (svc_get σ path f).2 = Some zk.ErrNoNode ↔ f = None ∧ σ !! path = None.
Proof.
  unfold svc_get. destruct f, (σ !! path); cbn; split; try done.
  all: by intros [? ?].
Qed.

(** C5.  [Get] returns the stored payload when ["/" + name] exists and the
    read succeeds; it returns [ErrNotExist] exactly when the service
    answers its read with "no such node", which on the service is when
    the connect and the read do not fail and the node is absent, as for
    every name in a store nothing was written to; every other failed
    read returns [ErrRead], and a failed connect returns [ErrConn].
    [Get] changes nothing. *)
Theorem Get_outcomes (store : StateStore) (name : string) (σ : nodes) :
  let znode := statePath name in
  let G := λ fs, run (Get store name) fs σ in
  (∀ n rest, σ !! znode = Some n →
     result (G (None :: None :: rest)) = (payload n, None))
  ∧ (∀ t r, may_run (Get store name) t r →
       (r.2 = Some ErrNotExist ↔ (CallGet znode, Some zk.ErrNoNode) ∈ t))
  ∧ (∀ fs, (result (G fs)).2 = Some ErrNotExist ↔
           fault_at fs = None ∧
           (svc_get σ znode (fault_at (tail fs))).2 = Some zk.ErrNoNode)
  ∧ (∀ rest, σ !! znode = None →
     (result (G (None :: None :: rest))).2 = Some ErrNotExist)
  ∧ (∀ rest, (result (run (Get store name) (None :: None :: rest) ∅)).2
             = Some ErrNotExist)
  ∧ (∀ ft rest, (result (G (None :: Some ft :: rest))).2 = Some ErrRead)
  ∧ (∀ ft rest, result (G (Some ft :: rest)) = ([], Some ErrConn))
  ∧ (∀ fs, final (G fs) = σ ∧ writes (calls (G fs)) = 0%nat).
Proof.
  intros znode G. subst znode G. unfold Get, defer, statePath.
  repeat apply conj.
  - intros n rest Hn. run_cases; by simplify_eq.
  - intros t r Hr. unfold ok in *.
    returns_cases; simplify_eq;
      rewrite ?elem_of_cons, elem_of_nil;
      (split; [intros ?; simplify_eq/=; auto
              | intros ?; destruct_or?; by simplify_eq]).
  - intros fs. rewrite svc_get_absent.
    run_cases; split; intros; destruct_and?; by simplify_eq.
  - intros rest Hn. run_cases; by simplify_eq.
  - intros rest. by cbn.
  - intros ft rest. by cbn.
  - intros ft rest. by cbn.
  - intros fs. by run_cases.
Qed.

Lemma Get_outcomes_witness :
  result (run (Get zks0 "tf") [None; None]
              {[ "/tf" := {| payload := infoA; version := 2 |} ]})
    = (infoA, None)
  ∧ (result (run (Get zks0 "tf") [None; None] (held "tf" infoA))).2
    = Some ErrNotExist.
Proof.
  split.
  - destruct (Get_outcomes zks0 "tf"
                {[ "/tf" := {| payload := infoA; version := 2 |} ]}) as [H _].
    apply (H {| payload := infoA; version := 2 |} []). reflexivity.
  - destruct (Get_outcomes zks0 "tf" (held "tf" infoA))
      as (_ & _ & _ & H & _).
    apply (H []). reflexivity.
Defined.

(** C6.  When the target node is absent, [Delete(name)] returns
    [ErrNotExist] and asks for no delete, and so does [Unlock(name)] on a
    name with no lock; when the node is present both ask for a delete
    fenced by the version the existence check returned and return
    [ErrDelete] when it fails; a failed existence check returns
    [ErrRead].  The results hold whatever the service answers: a delete
    that [Delete] or [Unlock] asks for is for its own path, and the
    operation returns [ErrDelete] when the delete is answered an error
    of whatever kind (a fault, a version that has moved, a node that is
    gone) and [nil] when it is not; an existence check answered an error
    gives [ErrRead]; and [ErrNotExist] is never returned after a delete
    was asked for. *)
Theorem Delete_Unlock_outcomes
    (store : StateStore) (name : string) (σ : nodes) :
  let D := λ fs, run (Delete store name) fs σ in
  let U := λ fs, run (Unlock store name) fs σ in
  (∀ rest, σ !! statePath name = None →
     result (D (None :: None :: rest)) = Some ErrNotExist
     ∧ calls (D (None :: None :: rest))
       = [ok (CallConnect (Zks store)); ok (CallExists (statePath name));
          ok CallClose])
  ∧ (∀ rest, σ !! lockPath name = None →
     result (U (None :: None :: rest)) = Some ErrNotExist
     ∧ calls (U (None :: None :: rest))
       = [ok (CallConnect (Zks store)); ok (CallExists (lockPath name));
          ok CallClose])
  ∧ (∀ n fd rest, σ !! statePath name = Some n →
     calls (D (None :: None :: fd :: rest))
       = [ok (CallConnect (Zks store)); ok (CallExists (statePath name));
          (CallDelete (statePath name) (version n), zk.ErrFault <$> fd);
          ok CallClose]
     ∧ result (D (None :: None :: fd :: rest))
       = match fd with Some _ => Some ErrDelete | None => None end)
  ∧ (∀ n fd rest, σ !! lockPath name = Some n →
     calls (U (None :: None :: fd :: rest))
       = [ok (CallConnect (Zks store)); ok (CallExists (lockPath name));
          (CallDelete (lockPath name) (version n), zk.ErrFault <$> fd);
          ok CallClose]
     ∧ result (U (None :: None :: fd :: rest))
       = match fd with Some _ => Some ErrDelete | None => None end)
  ∧ (∀ ft rest, result (D (None :: Some ft :: rest)) = Some ErrRead)
  ∧ (∀ ft rest, result (U (None :: Some ft :: rest)) = Some ErrRead)
  ∧ (∀ t r, may_run (Delete store name) t r →
     (∀ path ver e, (CallDelete path ver, e) ∈ t →
        path = statePath name
        ∧ r = match e with Some _ => Some ErrDelete | None => None end)
     ∧ (∀ path e, (CallExists path, Some e) ∈ t → r = Some ErrRead)
     ∧ (r = Some ErrNotExist → ∀ path ver e, (CallDelete path ver, e) ∉ t))
  ∧ (∀ t r, may_run (Unlock store name) t r →
     (∀ path ver e, (CallDelete path ver, e) ∈ t →
        path = lockPath name
        ∧ r = match e with Some _ => Some ErrDelete | None => None end)
     ∧ (∀ path e, (CallExists path, Some e) ∈ t → r = Some ErrRead)
     ∧ (r = Some ErrNotExist → ∀ path ver e, (CallDelete path ver, e) ∉ t)).
Proof.
  intros D U. subst D U. unfold Delete, Unlock, defer, statePath, lockPath.
  repeat apply conj.
  - intros rest Hn. run_cases; by simplify_eq.
  - intros rest Hn. run_cases; by simplify_eq.
  - intros n fd rest Hn. destruct fd; run_cases; by simplify_eq.
  - intros n fd rest Hn. destruct fd; run_cases; by simplify_eq.
  - intros ft rest. by cbn.
  - intros ft rest. by cbn.
  - intros t r Hr.
    returns_cases; simplify_eq; repeat apply conj;
      try (intros ??? Hin; by trace_cases Hin);
      try (intros ?? Hin; by trace_cases Hin);
      try done;
      intros _ ??? Hin; by trace_cases Hin.
  - intros t r Hr.
    returns_cases; simplify_eq; repeat apply conj;
      try (intros ??? Hin; by trace_cases Hin);
      try (intros ?? Hin; by trace_cases Hin);
      try done;
      intros _ ??? Hin; by trace_cases Hin.
Qed.

(** Runs in which the service refuses the delete: of a state record whose
    version has moved since the check, of a lock record that is gone. *)
Lemma Delete_refused :
  may_run (Delete zks0 "tf")
    [ok (CallConnect (Zks zks0)); ok (CallExists "/tf");
     (CallDelete "/tf" 3, Some zk.ErrBadVersion); ok CallClose]
    (Some ErrDelete).
Proof.
  unfold Delete, defer. cbn.
  exists None. eexists. split; [done|].
  exists true, {| zk.Version := 3 |}, None. eexists. split; [done|].
  exists (Some zk.ErrBadVersion). eexists. split; [done|].
  eexists. split; [done|]. done.
Qed.

Lemma Unlock_refused :
  may_run (Unlock zks0 "tf")
    [ok (CallConnect (Zks zks0)); ok (CallExists "/lock-tf");
     (CallDelete "/lock-tf" 0, Some zk.ErrNoNode); ok CallClose]
    (Some ErrDelete).
Proof.
  unfold Unlock, defer. cbn.
  exists None. eexists. split; [done|].
  exists true, {| zk.Version := 0 |}, None. eexists. split; [done|].
  exists (Some zk.ErrNoNode). eexists. split; [done|].
  eexists. split; [done|]. done.
Qed.

Lemma Delete_Unlock_outcomes_witness :
  result (run (Delete zks0 "tf") [None; None] ∅) = Some ErrNotExist
  ∧ result (run (Unlock zks0 "tf") [None; None] ∅) = Some ErrNotExist
  ∧ result (run (Unlock zks0 "tf") [None; None; Some zk.SessionExpired]
                (held "tf" infoA)) = Some ErrDelete
  ∧ ("/tf" = statePath "tf"
     ∧ Some ErrDelete = (Some ErrDelete : option error))
  ∧ ("/lock-tf" = lockPath "tf"
     ∧ Some ErrDelete = (Some ErrDelete : option error)).
Proof.
  split; [|split; [|split; [|split]]].
  4: { destruct (Delete_Unlock_outcomes zks0 "tf" ∅)
         as (_ & _ & _ & _ & _ & _ & H & _).
       destruct (H _ _ Delete_refused) as (Hd & _).
       apply (Hd "/tf" 3 (Some zk.ErrBadVersion)).
       apply list_elem_of_further, list_elem_of_further,
         list_elem_of_here. }
  4: { destruct (Delete_Unlock_outcomes zks0 "tf" ∅)
         as (_ & _ & _ & _ & _ & _ & _ & H).
       destruct (H _ _ Unlock_refused) as (Hd & _).
       apply (Hd "/lock-tf" 0 (Some zk.ErrNoNode)).
       apply list_elem_of_further, list_elem_of_further,
         list_elem_of_here. }
  - destruct (Delete_Unlock_outcomes zks0 "tf" ∅) as [H _].
    apply (H []). reflexivity.
  - destruct (Delete_Unlock_outcomes zks0 "tf" ∅) as (_ & H & _).
    apply (H []). reflexivity.
  - destruct (Delete_Unlock_outcomes zks0 "tf" (held "tf" infoA))
      as (_ & _ & _ & H & _).
    apply (H {| payload := infoA; version := 0 |} (Some zk.SessionExpired) []).
    reflexivity.
Defined.

(** C7.  The state path ["/" + name] and the lock path ["/lock-" + name]
    of one name differ, and the two records live apart:
    [Delete(name)] makes no call on the lock path and leaves the node
    there as it is, and [Unlock(name)] makes no call on the state path
    and leaves the node there as it is. *)
Theorem state_and_lock_records_independent
    (store : StateStore) (name : string) (fs : script) (σ : nodes) :
  statePath name ≠ lockPath name
  ∧ (final (run (Delete store name) fs σ) !! lockPath name
       = σ !! lockPath name
     ∧ Forall (λ a, call_path a.1 ≠ Some (lockPath name))
              (calls (run (Delete store name) fs σ)))
  ∧ (final (run (Unlock store name) fs σ) !! statePath name
       = σ !! statePath name
     ∧ Forall (λ a, call_path a.1 ≠ Some (statePath name))
              (calls (run (Unlock store name) fs σ))).
Proof.
  pose proof (statePath_ne_lockPath name) as Hne.
  split; [done|].
  unfold Delete, Unlock, defer, statePath, lockPath in *.
  split; run_cases;
    (split; [by rewrite ?lookup_delete_ne
            | repeat constructor; cbn; congruence]).
Qed.

(** C8.  Whatever the service answers, no operation asks it for more
    than one change, and an operation that returns an error has had no
    change accepted; so, on the service, an operation that returns an
    error leaves the node space exactly as it found it. *)
Theorem failed_operation_changes_nothing (store : StateStore) (o : op) :
  (∀ t r, may_run (perform store o) t r →
     (writes t ≤ 1)%nat ∧ (r ≠ None → applied t = 0%nat))
  ∧ (∀ fs σ, result (run (perform store o) fs σ) ≠ None →
     final (run (perform store o) fs σ) = σ).
Proof.
  assert (Hcode : ∀ t r, may_run (perform store o) t r →
            (writes t ≤ 1)%nat ∧ (r ≠ None → applied t = 0%nat)).
  { intros t r Hr.
    destruct o; unfold perform, Get, Update, Delete, Lock, Unlock, defer in Hr;
      returns_cases; simplify_eq; cbn; (split; [lia | done]). }
  split; [done|]. intros fs σ Herr.
  apply run_unapplied. by eapply Hcode; [apply run_may_run|].
Qed.

Lemma failed_operation_changes_nothing_witness :
  final (run (perform zks0 (OpUpdate "tf" infoB))
             [None; None; Some zk.ConnectionClosed]
             {[ "/tf" := {| payload := infoA; version := 0 |} ]})
    = {[ "/tf" := {| payload := infoA; version := 0 |} ]}.
Proof.
  destruct (failed_operation_changes_nothing zks0 (OpUpdate "tf" infoB))
    as [_ H].
  apply (H [None; None; Some zk.ConnectionClosed]
           {[ "/tf" := {| payload := infoA; version := 0 |} ]}).
  discriminate.
Defined.

(** C10.  Whatever the service answers, an error returned by [Lock] is
    [ErrConn], [ErrRead] or [ErrCreate] and comes with
    [alreadyLocked = false] and an empty lockinfo, and
    [alreadyLocked = true] comes only with a [nil] error; run on the
    service, [alreadyLocked = true] comes with the payload of the lock
    node that was there. *)
Theorem Lock_error_results
    (store : StateStore) (name : string) (lockinfo : bytes) :
  (∀ r, may_return (Lock store name lockinfo) r →
     (∀ e, r.2 = Some e →
        (e = ErrConn ∨ e = ErrRead ∨ e = ErrCreate) ∧ r = (false, [], Some e))
     ∧ (r.1.1 = true → r.2 = None))
  ∧ (∀ fs σ,
     let r := result (run (Lock store name lockinfo) fs σ) in
     r.1.1 = true →
     r.2 = None ∧ ∃ n, σ !! lockPath name = Some n ∧ r.1.2 = payload n).
Proof.
  unfold Lock, defer, lockPath. split.
  - intros r [t Hr].
    returns_cases; simplify_eq;
      (split; [intros e' He; simplify_eq/=; auto | intros; by simplify_eq/=]).
  - intros fs σ. run_cases; intros; simplify_eq; eauto.
Qed.

Lemma Lock_error_results_witness :
  result (run (Lock zks0 "tf" infoA) [None; Some zk.NoServer] ∅)
    = (false, [], Some ErrRead)
  ∧ (result (run (Lock zks0 "tf" infoB) [] (held "tf" infoA))).2 = None.
Proof.
  split.
  - destruct (Lock_error_results zks0 "tf" infoA) as [H _].
    destruct (H _ (run_may_return (Lock zks0 "tf" infoA)
                     [None; Some zk.NoServer] ∅)) as [He _].
    apply (He ErrRead). reflexivity.
  - destruct (Lock_error_results zks0 "tf" infoB) as [_ H].
    apply (H [] (held "tf" infoA)). reflexivity.
Defined.

(** C3, as written, fails.  [Lock("tf", infoA)] creates the lock record
    ["/lock-tf"]; [Update("lock-tf", infoB)] then works on the state path
    ["/" + "lock-tf"], which is the same node, finds it present and sets
    it: the lock record now holds [infoB] and was never removed. *)
Lemma Update_overwrites_lock_record :
  final (run (Lock zks0 "tf" infoA) [] ∅) = held "tf" infoA
  ∧ final (run (Update zks0 "lock-tf" infoB) [] (held "tf" infoA))
      !! lockPath "tf" = Some {| payload := infoB; version := 1 |}
  ∧ ¬ lock_payload_never_overwritten.
Proof.
  split; [reflexivity|]. split; [reflexivity|].
  intros H.
  specialize (H zks0 "tf" (OpUpdate "lock-tf" infoB) [] (held "tf" infoA)
                {| payload := infoA; version := 0 |}
                {| payload := infoB; version := 1 |} eq_refl eq_refl).
  discriminate H.
Qed.

(** C3, amended.  While the lock record of [name] exists, no request
    other than an [Update] on the name ["lock-" + name] changes it: after
    the request the node is as it was, payload and version, or it is
    gone, and it is gone only after [Unlock(name)] or
    [Delete("lock-" + name)], the two requests that delete on that
    path.  In particular [Lock] never rewrites a lock record. *)
Theorem lock_record_kept_until_removed
    (store : StateStore) (name : string) (o : op) (fs : script) (σ : nodes)
    (n : Node) :
  σ !! lockPath name = Some n →
  (∀ state, o ≠ OpUpdate ("lock-" +:+ name) state) →
  let σ' := final (run (perform store o) fs σ) in
  σ' !! lockPath name = Some n
  ∨ (σ' !! lockPath name = None
     ∧ (o = OpUnlock name ∨ o = OpDelete ("lock-" +:+ name))).
Proof.
  intros Hn Hupd.
  destruct o as [nm | nm st | nm | nm info | nm];
    unfold perform, Get, Update, Delete, Lock, Unlock, defer, lockPath in *.
  - run_cases; by left.
  - destruct (decide (nm = "lock-" +:+ name)) as [->|Hne];
      [by destruct (Hupd st)|].
    assert ("/" +:+ nm ≠ "/lock-" +:+ name) by (intros ?; simplify_eq/=).
    run_cases; left; by rewrite ?lookup_insert_ne.
  - destruct (decide (nm = "lock-" +:+ name)) as [->|Hne].
    + change ("/" +:+ "lock-" +:+ name) with ("/lock-" +:+ name).
      run_cases; simplify_eq;
        first [by left | right; rewrite lookup_delete_eq; auto].
    + assert ("/" +:+ nm ≠ "/lock-" +:+ name) by (intros ?; simplify_eq/=).
      run_cases; left; by rewrite ?lookup_delete_ne.
  - destruct (decide (nm = name)) as [->|Hne].
    + run_cases; simplify_eq; by left.
    + assert ("/lock-" +:+ nm ≠ "/lock-" +:+ name)
        by (intros ?; simplify_eq/=).
      run_cases; left; by rewrite ?lookup_insert_ne.
  - destruct (decide (nm = name)) as [->|Hne].
    + run_cases; simplify_eq;
        first [by left | right; rewrite lookup_delete_eq; auto].
    + assert ("/lock-" +:+ nm ≠ "/lock-" +:+ name)
        by (intros ?; simplify_eq/=).
      run_cases; left; by rewrite ?lookup_delete_ne.
Qed.

Lemma lock_record_kept_until_removed_witness :
  final (run (perform zks0 (OpLock "tf" infoB)) [] (held "tf" infoA))
    !! lockPath "tf" = Some {| payload := infoA; version := 0 |}
  ∨ (final (run (perform zks0 (OpLock "tf" infoB)) [] (held "tf" infoA))
       !! lockPath "tf" = None
     ∧ (OpLock "tf" infoB = OpUnlock "tf"
        ∨ OpLock "tf" infoB = OpDelete ("lock-" +:+ "tf"))).
Proof.
  apply (lock_record_kept_until_removed zks0 "tf" (OpLock "tf" infoB) []
           (held "tf" infoA) {| payload := infoA; version := 0 |}).
  - reflexivity.
  - intros state. discriminate.
Defined.

(** ** [Lock] call by call *)

Section LockPointsFacts.
Variables (store : StateStore) (name : string) (lockinfo : bytes).

(** [pc_step] is what [step] does to the program at [pc]. *)
Lemma step_at_pc (pc : lock_pc) (σ : nodes) :
  calls_left pc ≠ 0%nat →
  ∃ a σ',
    pc_call store name lockinfo (σ !! lockPath name) pc = Some a
    ∧ step (at_pc store name lockinfo pc) None σ
      = Some (a, at_pc store name lockinfo (pc_step lockinfo (σ !! lockPath name) pc).1, σ')
    ∧ σ' !! lockPath name = (pc_step lockinfo (σ !! lockPath name) pc).2
    ∧ ∀ q, q ≠ lockPath name → σ' !! q = σ !! q.
Proof.
  unfold lockPath.
  destruct pc as [| |[]|r|r]; cbn; intros Hleft; try done.
  - by eexists _, σ.
  - unfold Lock_connected, Lock, defer. cbn.
    destruct (σ !! _) eqn:E; rewrite ?E; by eexists _, σ.
  - unfold Lock_checked, Lock_connected, Lock, defer. cbn.
    destruct (σ !! _) eqn:E; rewrite ?E; by eexists _, σ.
  - unfold Lock_checked, Lock_connected, Lock, defer. cbn.
    destruct (σ !! _) eqn:E; rewrite ?E; cbn.
    + by eexists _, σ.
    + eexists _, _. split; [done|]. split; [done|].
      split; [by rewrite lookup_insert_eq|].
      intros q Hq. by rewrite lookup_insert_ne.
  - by eexists _, σ.
Qed.

Lemma step_returned (r : lock_result) (σ : nodes) :
  step (at_pc store name lockinfo (PcReturned r)) None σ = None.
Proof. done. Qed.

Lemma returned_at_pc (pc : lock_pc) (r : lock_result) :
  returned (at_pc store name lockinfo pc) = Some r → pc = PcReturned r.
Proof.
  destruct pc as [| |[]|r'|r'];
    unfold at_pc, Lock_checked, Lock_connected, Lock, defer; cbn;
    intros; by simplify_eq.
Qed.

End LockPointsFacts.

(** ** The race on one lock *)

Section LockRaceFacts.
Variables (store : StateStore) (name : string) (infos : list bytes).

Lemma count_occ_snoc (sched : list nat) (i j : nat) :
  count_occ Nat.eq_dec (sched ++ [i]) j
  = (count_occ Nat.eq_dec sched j + if decide (i = j) then 1 else 0)%nat.
Proof.
  rewrite count_occ_app. cbn.
  destruct (Nat.eq_dec i j), (decide (i = j)); done.
Qed.

Lemma calls_left_step (info : bytes) (lk : option Node) (pc : lock_pc) :
  calls_left (pc_step info lk pc).1 = pred (calls_left pc).
Proof. by destruct pc as [| |[]| |], lk. Qed.

(** The log of a schedule with one more turn. *)
Lemma run_log_snoc {R : Type} (sched : list nat) (i : nat) (c : config R) :
  run_log (sched ++ [i]) c
  = (run_log sched c ++ sched_event (run_sched sched c) i)%list.
Proof.
  revert c. induction sched as [|j sched IH]; intros c; cbn.
  - by rewrite app_nil_r.
  - by rewrite IH, app_assoc.
Qed.

Lemma lookup_snoc_new {A : Type} (l : list A) (x : A) :
  (l ++ [x])%list !! length l = Some x.
Proof. by apply list_lookup_middle. Qed.

(** What the log says stays so when the log grows. *)
Lemma checked_at_mono (log l : list (nat * answered)) (j t : nat) :
  checked_at name log j t → checked_at name (log ++ l) j t.
Proof. unfold checked_at. intros H. by apply lookup_app_l_Some. Qed.

Lemma early_mono (log l : list (nat * answered)) (j : nat) (pc : lock_pc) :
  early name log j pc → early name (log ++ l) j pc.
Proof.
  intros [-> | [-> | [-> [t Ht]]]]; [by left | by right; left |].
  right; right. split; [done|]. exists t. by apply checked_at_mono.
Qed.

Lemma loser_ok_mono (log l : list (nat * answered)) (j tw : nat)
    (info_w : bytes) (pc : lock_pc) :
  loser_ok name log j tw info_w pc → loser_ok name (log ++ l) j tw info_w pc.
Proof.
  destruct pc; cbn; try done; intros (tj & Hj & ?); exists tj;
    (split; [by apply checked_at_mono | done]).
Qed.

Lemma race_inv_init (σ : nodes) :
  σ !! lockPath name = None →
  race_inv store name infos [] [] (racing store name infos σ).
Proof.
  intros Hσ. exists (replicate (length infos) PcStart).
  split; [|split; [|split]].
  - split; [by cbn; rewrite length_fmap|].
    split; [by rewrite length_replicate|].
    intros i info pc Hi Hpc. apply lookup_replicate in Hpc as [-> _].
    cbn. by rewrite list_lookup_fmap, Hi.
  - cbn. rewrite Hσ. intros i pc Hpc.
    apply lookup_replicate in Hpc as [-> _]. by left.
  - intros i pc Hpc. by apply lookup_replicate in Hpc as [-> _].
  - unfold log_ok, checked_at, created_at. split; [|split].
    + intros j pc _. split; [intros _ t Ht | intros t t' Ht]; done.
    + intros _ k info t Ht. done.
    + intros k info t k' info' t' Ht. done.
Qed.

(** An entry of the log with one more call is the new call or was there. *)
Lemma checked_at_snoc (log : list (nat * answered)) (i : nat) (a : answered)
    (j t : nat) :
  checked_at name (log ++ [(i, a)]) j t →
  checked_at name log j t
  ∨ (t = length log ∧ i = j ∧ a = ok (CallExists (lockPath name))).
Proof.
  unfold checked_at. intros H. apply lookup_snoc_Some in H as [[_ H]|[-> H]].
  - by left.
  - right. by simplify_eq.
Qed.

Lemma created_at_snoc (log : list (nat * answered)) (i : nat) (a : answered)
    (k : nat) (info : bytes) (t : nat) :
  created_at name (log ++ [(i, a)]) k info t →
  created_at name log k info t
  ∨ (t = length log ∧ i = k ∧ a = ok (CallCreate (lockPath name) info)).
Proof.
  unfold created_at. intros H. apply lookup_snoc_Some in H as [[_ H]|[-> H]].
  - by left.
  - right. by simplify_eq.
Qed.

(** One call of the operation [i], logged, keeps the count of the
    existence checks and of the granted creations. *)
Lemma log_ok_step (log : list (nat * answered)) (lk : option Node)
    (pcs : list lock_pc) (i : nat) (info : bytes) (pc : lock_pc)
    (a : answered) :
  infos !! i = Some info → pcs !! i = Some pc →
  pc_call store name info lk pc = Some a →
  log_ok name log lk pcs →
  log_ok name (log ++ [(i, a)]) (pc_step info lk pc).2
         (<[i := (pc_step info lk pc).1]> pcs).
Proof.
  intros Hinfo Hpc Hcall (Hchk & Hnone & Hone).
  assert (Hi : (i < length pcs)%nat) by by eapply lookup_lt_Some.
  assert (Hold_c : ∀ j t, checked_at name log j t → (t < length log)%nat)
    by (intros j t Ht; by eapply lookup_lt_Some).
  assert (Hold_k : ∀ k inf t, created_at name log k inf t
                              → (t < length log)%nat)
    by (intros k inf t Ht; by eapply lookup_lt_Some).
  split; [|split].
  - intros j pcj. destruct (decide (j = i)) as [->|Hji].
    + rewrite list_lookup_insert_eq; [|done]. intros ?; simplify_eq.
      destruct (Hchk i pc Hpc) as [Hno Huniq].
      destruct pc as [| |[]|r|r]; cbn in *; simplify_eq.
      * split.
        -- intros _ t Ht. apply checked_at_snoc in Ht as [Ht|(_ & _ & ?)];
             [|done]. eapply Hno; [lia | done].
        -- intros t t' Ht. exfalso.
           apply checked_at_snoc in Ht as [Ht|(_ & _ & ?)]; [|done].
           eapply Hno; [lia | done].
      * split; [destruct lk; cbn; lia|].
        intros t t' Ht Ht'.
        apply checked_at_snoc in Ht as [Ht|(-> & _ & _)];
          [exfalso; eapply Hno; [lia | done]|].
        apply checked_at_snoc in Ht' as [Ht'|(-> & _ & _)];
          [exfalso; eapply Hno; [lia | done]|].
        done.
      * split; [destruct lk; cbn; lia|].
        intros t t' Ht Ht'.
        apply checked_at_snoc in Ht as [Ht|(_ & _ & ?)]; [|done].
        apply checked_at_snoc in Ht' as [Ht'|(_ & _ & ?)]; [|done].
        eauto.
      * split; [destruct lk; cbn; lia|].
        intros t t' Ht Ht'.
        apply checked_at_snoc in Ht as [Ht|(_ & _ & ?)]; [|done].
        apply checked_at_snoc in Ht' as [Ht'|(_ & _ & ?)]; [|done].
        eauto.
      * split; [cbn; lia|].
        intros t t' Ht Ht'.
        apply checked_at_snoc in Ht as [Ht|(_ & _ & ?)]; [|done].
        apply checked_at_snoc in Ht' as [Ht'|(_ & _ & ?)]; [|done].
        eauto.
    + rewrite list_lookup_insert_ne; [|done]. intros Hpcj.
      destruct (Hchk j pcj Hpcj) as [Hno Huniq]. split.
      * intros Hleft t Ht.
        apply checked_at_snoc in Ht as [Ht|(_ & ? & _)]; [|done].
        by eapply Hno.
      * intros t t' Ht Ht'.
        apply checked_at_snoc in Ht as [Ht|(_ & ? & _)]; [|done].
        apply checked_at_snoc in Ht' as [Ht'|(_ & ? & _)]; [|done].
        eauto.
  - intros Hlk k inf t Ht.
    assert (lk = None) as ->
      by (destruct lk, pc as [| |[]| |]; cbn in Hlk; by simplify_eq).
    apply created_at_snoc in Ht as [Ht|(_ & _ & ->)].
    + by eapply Hnone.
    + destruct pc as [| |[]|r|r]; cbn in *; by simplify_eq.
  - intros k inf t k' inf' t' Ht Ht'.
    apply created_at_snoc in Ht as [Ht|(-> & _ & ->)];
      apply created_at_snoc in Ht' as [Ht'|(-> & _ & Ha)].
    + eauto.
    + exfalso. destruct lk as [nd|];
        [destruct pc as [| |[]|r|r]; cbn in *; by simplify_eq|].
      by eapply Hnone.
    + exfalso. destruct lk as [nd|];
        [destruct pc as [| |[]|r|r]; cbn in *; by simplify_eq|].
      by eapply Hnone.
    + done.
Qed.

(** One call of the operation [i], logged, keeps the account of who
    checked before and who after the winner's create. *)
Lemma race_ok_step (log : list (nat * answered)) (lk : option Node)
    (pcs : list lock_pc) (i : nat) (info : bytes) (pc : lock_pc)
    (a : answered) :
  infos !! i = Some info → pcs !! i = Some pc →
  pc_call store name info lk pc = Some a →
  race_ok name infos log lk pcs →
  race_ok name infos (log ++ [(i, a)]) (pc_step info lk pc).2
          (<[i := (pc_step info lk pc).1]> pcs).
Proof.
  intros Hinfo Hpc Hcall Hok.
  assert (Hi : (i < length pcs)%nat) by by eapply lookup_lt_Some.
  destruct lk as [nd|]; cbn in Hok.
  - destruct Hok
      as (w & info_w & tw & Hw & -> & Htw & (pcw & Hpcw & Hwin) & Hothers).
    assert (Hsame : (pc_step info
              (Some {| payload := info_w; version := 0 |}) pc).2
            = Some {| payload := info_w; version := 0 |})
      by by destruct pc as [| |[]| |].
    rewrite Hsame. exists w, info_w, tw.
    split; [done|]. split; [done|].
    split; [by apply lookup_app_l_Some|].
    assert (Htwlt : (tw < length log)%nat) by by eapply lookup_lt_Some.
    destruct (decide (i = w)) as [->|Hne].
    + simplify_eq. split.
      * eexists. rewrite list_lookup_insert_eq; [|done]. split; [done|].
        destruct Hwin as [-> | ->]; cbn in *; [by right | done].
      * intros j pcj Hj. rewrite list_lookup_insert_ne; [|done].
        intros Hpcj. apply loser_ok_mono. eauto.
    + split.
      * exists pcw. by rewrite list_lookup_insert_ne.
      * intros j pcj Hj. destruct (decide (j = i)) as [->|Hji].
        -- rewrite list_lookup_insert_eq; [|done]. intros; simplify_eq.
           specialize (Hothers i pc Hne Hpc).
           destruct pc as [| |[]|r|r]; cbn in *; simplify_eq; try done.
           ++ exists (length log). split; [apply lookup_snoc_new|].
              rewrite bool_decide_eq_false_2 by lia. done.
           ++ destruct Hothers as (tj & Htj & Hb).
              exists tj. split; [by apply checked_at_mono|].
              unfold loser_result.
              destruct (bool_decide (tj < tw)%nat); by simplify_eq.
           ++ destruct Hothers as (tj & Htj & Hb).
              exists tj. split; [by apply checked_at_mono|].
              unfold loser_result.
              destruct (bool_decide (tj < tw)%nat); by simplify_eq.
           ++ destruct Hothers as (tj & Htj & Hr).
              exists tj. split; [by apply checked_at_mono | done].
        -- rewrite list_lookup_insert_ne; [|done].
           intros Hpcj. apply loser_ok_mono. eauto.
  - pose proof (Hok i pc Hpc) as Hearly.
    destruct Hearly as [-> | [-> | [-> [ti Hti]]]]; cbn in *; simplify_eq.
    + intros j pcj. destruct (decide (j = i)) as [->|Hji].
      * rewrite list_lookup_insert_eq; [|done]. intros; simplify_eq.
        right; by left.
      * rewrite list_lookup_insert_ne; [|done].
        intros Hpcj. apply early_mono. eauto.
    + intros j pcj. destruct (decide (j = i)) as [->|Hji].
      * rewrite list_lookup_insert_eq; [|done]. intros; simplify_eq.
        right; right. split; [done|]. exists (length log).
        apply lookup_snoc_new.
      * rewrite list_lookup_insert_ne; [|done].
        intros Hpcj. apply early_mono. eauto.
    + exists i, info, (length log).
      split; [done|]. split; [done|]. split; [apply lookup_snoc_new|]. split.
      * eexists. rewrite list_lookup_insert_eq; [|done]. split; [done|].
        by left.
      * intros j pcj Hji. rewrite list_lookup_insert_ne; [|done].
        intros Hj. destruct (Hok j pcj Hj) as [-> | [-> | [-> [tj Htj]]]];
          cbn; try done.
        exists tj. split; [by apply checked_at_mono|].
        assert ((tj < length log)%nat) by by eapply lookup_lt_Some.
        by rewrite bool_decide_eq_true_2.
Qed.

(** One scheduled call keeps the invariant. *)
Lemma race_inv_step (sched : list nat) (log : list (nat * answered))
    (c : config lock_result) (i : nat) :
  race_inv store name infos sched log c →
  race_inv store name infos (sched ++ [i]) (log ++ sched_event c i)
           (sched_step c i).
Proof.
  intros (pcs & (Hlen & Hlenp & Htr) & Hok & Hprog & Hlog).
  unfold sched_step, sched_event.
  destruct (threads c !! i) as [p|] eqn:Hp.
  2: { rewrite app_nil_r. exists pcs. split; [done|]. split; [done|].
       split; [|done].
       intros j pc Hj. rewrite count_occ_snoc.
       destruct (decide (i = j)) as [->|Hne].
       - apply lookup_lt_Some in Hj. apply lookup_ge_None in Hp. lia.
       - rewrite Nat.add_0_r. eauto. }
  assert (Hi : (i < length infos)%nat)
    by (apply lookup_lt_Some in Hp; lia).
  destruct (lookup_lt_is_Some_2 infos i Hi) as [info Hinfo].
  assert (Hi' : (i < length pcs)%nat) by lia.
  destruct (lookup_lt_is_Some_2 pcs i Hi') as [pc Hpc].
  rewrite (Htr i info pc Hinfo Hpc) in Hp. simplify_eq.
  destruct (decide (calls_left pc = 0%nat)) as [Hz|Hnz].
  - destruct pc; try done. rewrite step_returned, app_nil_r.
    exists pcs. split; [done|]. split; [done|]. split; [|done].
    intros j pc Hj. rewrite count_occ_snoc.
    destruct (decide (i = j)) as [->|Hne].
    + simplify_eq. specialize (Hprog j _ Hpc). cbn in *. lia.
    + rewrite Nat.add_0_r. eauto.
  - destruct (step_at_pc store name info pc (svc c) Hnz)
      as (a & σ' & Hcall & Hstep & Hlk & _).
    rewrite Hstep.
    exists (<[i := (pc_step info (svc c !! lockPath name) pc).1]> pcs).
    split; [|split; [|split]].
    + split; [by cbn; rewrite length_insert|].
      split; [by rewrite length_insert|].
      intros j infoj pcj Hj. cbn.
      destruct (decide (i = j)) as [->|Hne].
      * rewrite !list_lookup_insert_eq by lia. intros; by simplify_eq.
      * rewrite !list_lookup_insert_ne by done. eauto.
    + cbn. rewrite Hlk. by apply race_ok_step.
    + intros j pcj. rewrite count_occ_snoc.
      destruct (decide (i = j)) as [->|Hne].
      * rewrite list_lookup_insert_eq by lia. intros; simplify_eq.
        rewrite calls_left_step. specialize (Hprog j pc Hpc). lia.
      * rewrite list_lookup_insert_ne by done. rewrite Nat.add_0_r. eauto.
    + cbn. rewrite Hlk. by apply log_ok_step.
Qed.

(** The invariant holds along every schedule. *)
Lemma race_inv_run (sched : list nat) (σ : nodes) :
  σ !! lockPath name = None →
  race_inv store name infos sched
           (run_log sched (racing store name infos σ))
           (run_sched sched (racing store name infos σ)).
Proof.
  intros Hσ. induction sched as [|i sched IH] using rev_ind.
  - by apply race_inv_init.
  - rewrite run_log_snoc. unfold run_sched. rewrite foldl_snoc.
    by apply race_inv_step.
Qed.

(** Once every call has returned, there is one winner, and every other
    call lost the creation or read the winner's lockinfo, according to
    whether it checked before or after the winner's create. *)
Lemma race_inv_all_returned (sched : list nat) (log : list (nat * answered))
    (c : config lock_result) :
  infos ≠ [] →
  race_inv store name infos sched log c →
  (∀ i p, threads c !! i = Some p → is_Some (returned p)) →
  ∃ w info_w tw,
    infos !! w = Some info_w
    ∧ log !! tw = Some (w, ok (CallCreate (lockPath name) info_w))
    ∧ (∀ k info t,
         log !! t = Some (k, ok (CallCreate (lockPath name) info)) → t = tw)
    ∧ results c !! w = Some (Some (false, info_w, None))
    ∧ svc c !! lockPath name = Some {| payload := info_w; version := 0 |}
    ∧ ∀ j, j ≠ w → (j < length infos)%nat →
        ∃ tj, log !! tj = Some (j, ok (CallExists (lockPath name)))
              ∧ (∀ t, log !! t = Some (j, ok (CallExists (lockPath name)))
                      → t = tj)
              ∧ results c !! j
                = Some (Some (if bool_decide (tj < tw)%nat
                              then (false, [], Some ErrCreate)
                              else (true, info_w, None))).
Proof.
  intros Hne (pcs & (Hlen & Hlenp & Htr) & Hok & _ & Hchk & _ & Hone) Hret.
  assert (Hpcs : ∀ i info pc, infos !! i = Some info → pcs !! i = Some pc →
            ∃ r, pc = PcReturned r
                 ∧ results c !! i = Some (Some r)).
  { intros i info pc Hi Hpc. pose proof (Htr i info pc Hi Hpc) as Hth.
    destruct (Hret _ _ Hth) as [r Hr].
    apply returned_at_pc in Hr as ->. exists r. split; [done|].
    unfold results. by rewrite list_lookup_fmap, Hth. }
  destruct (svc c !! lockPath name) as [nd|]; cbn in Hok.
  - destruct Hok
      as (w & info_w & tw & Hw & -> & Htw & (pcw & Hpcw & Hwin) & Hothers).
    exists w, info_w, tw. split; [done|]. split; [done|].
    split; [intros k info t Ht; by eapply Hone|].
    destruct (Hpcs w info_w pcw Hw Hpcw) as (r & -> & Hres).
    split; [destruct Hwin as [?|?]; by simplify_eq|]. split; [done|].
    intros j Hjw Hj.
    destruct (lookup_lt_is_Some_2 infos j Hj) as [infoj Hinfoj].
    assert (Hj' : (j < length pcs)%nat) by lia.
    destruct (lookup_lt_is_Some_2 pcs j Hj') as [pcj Hpcj].
    destruct (Hpcs j infoj pcj Hinfoj Hpcj) as (rj & -> & Hresj).
    destruct (Hothers j _ Hjw Hpcj) as (tj & Htj & ->).
    exists tj. split; [done|].
    split; [intros t Ht; by eapply (Hchk j _ Hpcj)|]. by rewrite Hresj.
  - destruct infos as [|info0 infos']; [done|].
    assert (H0 : (0 < length pcs)%nat) by (rewrite Hlenp; cbn; lia).
    destruct (lookup_lt_is_Some_2 pcs 0 H0) as [pc0 Hpc0].
    destruct (Hpcs 0%nat info0 pc0 eq_refl Hpc0) as (r & -> & _).
    by destruct (Hok _ _ Hpc0) as [? | [? | [? _]]].
Qed.

(** A schedule that gives every call its four turns sees every call
    return. *)
Lemma race_inv_fair (sched : list nat) (log : list (nat * answered))
    (c : config lock_result) :
  race_inv store name infos sched log c →
  (∀ i, (i < length infos)%nat → (4 ≤ count_occ Nat.eq_dec sched i)%nat) →
  ∀ i p, threads c !! i = Some p → is_Some (returned p).
Proof.
  intros (pcs & (Hlen & Hlenp & Htr) & _ & Hprog & _) Hfair i p Hp.
  assert (Hi : (i < length infos)%nat)
    by (apply lookup_lt_Some in Hp; lia).
  destruct (lookup_lt_is_Some_2 infos i Hi) as [info Hinfo].
  assert (Hi' : (i < length pcs)%nat) by lia.
  destruct (lookup_lt_is_Some_2 pcs i Hi') as [pc Hpc].
  rewrite (Htr i info pc Hinfo Hpc) in Hp. simplify_eq.
  specialize (Hprog i pc Hpc). specialize (Hfair i Hi).
  destruct pc; cbn in *; try lia. by eexists.
Qed.

End LockRaceFacts.

(** C9, as written, fails.  Two calls race on the never-locked name
    ["tf"], taking turns: both connect, both are told the lock node is
    absent, the first creates it, and the creation of the second fails.
    The second call returns [alreadyLocked = false] with [ErrCreate]: two
    calls returned [alreadyLocked = false] and none returned [true]. *)
Lemma Lock_race_loser_gets_ErrCreate :
  results (run_sched [0; 1; 0; 1; 0; 1; 0; 1]%nat
                     (racing zks0 "tf" [infoA; infoB] ∅))
    = [Some (false, infoA, None); Some (false, [], Some ErrCreate)]
  ∧ ¬ Lock_race_as_claimed.
Proof.
  assert (Hres : results (run_sched [0; 1; 0; 1; 0; 1; 0; 1]%nat
                            (racing zks0 "tf" [infoA; infoB] ∅))
                 = [Some (false, infoA, None);
                    Some (false, [], Some ErrCreate)]) by reflexivity.
  split; [done|]. intros H.
  specialize (H zks0 "tf" [infoA; infoB] ∅ [0; 1; 0; 1; 0; 1; 0; 1]%nat
                eq_refl ltac:(done)).
  cbv zeta in H. rewrite Hres in H.
  destruct H as (w & info_w & Hw & _ & Hrest).
  - intros i p Hp. apply (f_equal (fmap returned)) in Hp.
    rewrite <- list_lookup_fmap in Hp. fold (results (run_sched
      [0; 1; 0; 1; 0; 1; 0; 1]%nat (racing zks0 "tf" [infoA; infoB] ∅))) in Hp.
    rewrite Hres in Hp.
    destruct i as [|[|i]]; cbn in Hp; by simplify_eq.
  - destruct w as [|[|w]]; [| |done].
    + destruct (Hrest 1%nat) as [err Herr]; [done | cbn; lia | done].
    + destruct (Hrest 0%nat) as [err Herr]; [done | cbn; lia | done].
Qed.

(** Three calls race on the never-locked name ["tf"]: the first two are
    told the node is absent, the first creates it (entry 4 of the log),
    the create of the second is refused, and the third, which checks
    after the create (entry 7), reads the first's lockinfo. *)
Lemma Lock_race_three_callers :
  results (run_sched [0; 1; 0; 1; 0; 1; 2; 2; 2; 2; 0; 1]%nat
                     (racing zks0 "tf" [infoA; infoB; infoB] ∅))
    = [Some (false, infoA, None); Some (false, [], Some ErrCreate);
       Some (true, infoA, None)]
  ∧ run_log [0; 1; 0; 1; 0; 1; 2; 2; 2; 2; 0; 1]%nat
            (racing zks0 "tf" [infoA; infoB; infoB] ∅)
    = [(0, ok (CallConnect (Zks zks0))); (1, ok (CallConnect (Zks zks0)));
       (0, ok (CallExists "/lock-tf")); (1, ok (CallExists "/lock-tf"));
       (0, ok (CallCreate "/lock-tf" infoA));
       (1, (CallCreate "/lock-tf" infoB, Some zk.ErrNodeExists));
       (2, ok (CallConnect (Zks zks0))); (2, ok (CallExists "/lock-tf"));
       (2, ok (CallGet "/lock-tf")); (2, ok CallClose);
       (0, ok CallClose); (1, ok CallClose)]%nat.
Proof. split; reflexivity. Qed.

(** C9, amended.  [N ≥ 1] calls [Lock(name, info_i)] race on a name whose
    lock node is absent, under any schedule that lets each make its four
    calls, no call failing but by the race.  Then all return; exactly
    one, the winner, returns [alreadyLocked = false] with a [nil] error
    and its own [info_i], which is what the lock node holds: its create
    is the entry [tw] of the log of the calls the service served, and the
    only create the service granted.  Every other call made its one
    existence check at some entry [tj] of that log: when the check came
    before the winner's create ([tj < tw]) the call was told the node is
    absent, its own create is refused, and it returns
    [alreadyLocked = false] with an empty lockinfo and [ErrCreate]; when
    the check came after, it returns [alreadyLocked = true] with the
    winner's lockinfo and a [nil] error. *)
Theorem Lock_race_outcome
    (store : StateStore) (name : string) (infos : list bytes) (σ : nodes)
    (sched : list nat) :
  σ !! lockPath name = None →
  infos ≠ [] →
  (∀ i, (i < length infos)%nat → (4 ≤ count_occ Nat.eq_dec sched i)%nat) →
  let c := run_sched sched (racing store name infos σ) in
  let log := run_log sched (racing store name infos σ) in
  ∃ w info_w tw,
    infos !! w = Some info_w
    ∧ log !! tw = Some (w, ok (CallCreate (lockPath name) info_w))
    ∧ (∀ k info t,
         log !! t = Some (k, ok (CallCreate (lockPath name) info)) → t = tw)
    ∧ results c !! w = Some (Some (false, info_w, None))
    ∧ svc c !! lockPath name = Some {| payload := info_w; version := 0 |}
    ∧ ∀ j, j ≠ w → (j < length infos)%nat →
        ∃ tj, log !! tj = Some (j, ok (CallExists (lockPath name)))
              ∧ (∀ t, log !! t = Some (j, ok (CallExists (lockPath name)))
                      → t = tj)
              ∧ results c !! j
                = Some (Some (if bool_decide (tj < tw)%nat
                              then (false, [], Some ErrCreate)
                              else (true, info_w, None))).
Proof.
  intros Hσ Hne Hfair c log.
  pose proof (race_inv_run store name infos sched σ Hσ) as Hinv.
  eapply race_inv_all_returned; [done | exact Hinv |].
  by eapply race_inv_fair.
Qed.

Lemma Lock_race_outcome_witness :
  ∃ w info_w tw,
    [infoA; infoB; infoB] !! w = Some info_w
    ∧ run_log [0; 1; 0; 1; 0; 1; 2; 2; 2; 2; 0; 1]%nat
              (racing zks0 "tf" [infoA; infoB; infoB] ∅) !! tw
      = Some (w, ok (CallCreate (lockPath "tf") info_w))
    ∧ (∀ k info t,
         run_log [0; 1; 0; 1; 0; 1; 2; 2; 2; 2; 0; 1]%nat
                 (racing zks0 "tf" [infoA; infoB; infoB] ∅) !! t
           = Some (k, ok (CallCreate (lockPath "tf") info)) → t = tw)
    ∧ results (run_sched [0; 1; 0; 1; 0; 1; 2; 2; 2; 2; 0; 1]%nat
                         (racing zks0 "tf" [infoA; infoB; infoB] ∅)) !! w
      = Some (Some (false, info_w, None))
    ∧ svc (run_sched [0; 1; 0; 1; 0; 1; 2; 2; 2; 2; 0; 1]%nat
                     (racing zks0 "tf" [infoA; infoB; infoB] ∅))
        !! lockPath "tf"
      = Some {| payload := info_w; version := 0 |}
    ∧ ∀ j, j ≠ w → (j < length [infoA; infoB; infoB])%nat →
        ∃ tj,
          run_log [0; 1; 0; 1; 0; 1; 2; 2; 2; 2; 0; 1]%nat
                  (racing zks0 "tf" [infoA; infoB; infoB] ∅) !! tj
            = Some (j, ok (CallExists (lockPath "tf")))
          ∧ (∀ t,
               run_log [0; 1; 0; 1; 0; 1; 2; 2; 2; 2; 0; 1]%nat
                       (racing zks0 "tf" [infoA; infoB; infoB] ∅) !! t
                 = Some (j, ok (CallExists (lockPath "tf"))) → t = tj)
          ∧ results (run_sched [0; 1; 0; 1; 0; 1; 2; 2; 2; 2; 0; 1]%nat
                               (racing zks0 "tf" [infoA; infoB; infoB] ∅))
              !! j
            = Some (Some (if bool_decide (tj < tw)%nat
                          then (false, [], Some ErrCreate)
                          else (true, info_w, None))).
Proof.
  apply (Lock_race_outcome zks0 "tf" [infoA; infoB; infoB] ∅
           [0; 1; 0; 1; 0; 1; 2; 2; 2; 2; 0; 1]%nat).
  - reflexivity.
  - discriminate.
  - intros i Hi. destruct i as [|[|[|i]]]; cbn in *; lia.
Defined.

(** * The HTTP layer: proofs *)

(** No error text holds a [%], so [fmt.Fprintf(w, err.Error())] writes the
    text as it is. *)
Lemma Error_has_no_verb (e : error) : String.index 0%nat "%" (Error e) = None.
Proof. by destruct e. Qed.

(** Case analysis over a run of a handler: as [run_cases], with the
    cases of the [switch] decided. *)
Ltac handler_cases :=
  repeat (cbn in *;
    match goal with
    | |- context [bool_decide (?e ∈ ?l)] =>
        let b := eval vm_compute in (bool_decide (e ∈ l)) in
        change (bool_decide (e ∈ l)) with b
    | |- context [fault_at ?fs] => destruct (fault_at fs) eqn:?
    | |- context [@lookup _ _ (gmap string Node) _ ?k ?s] =>
        is_var s; destruct (s !! k) eqn:?
    | |- context [bool_decide (_ = _)] => case_bool_decide
    end);
  cbn in *.

(** Case analysis over what a handler can do whatever the service
    answers. *)
Ltac handler_returns :=
  repeat (cbn in *;
    match goal with
    | H : context [bool_decide (?e ∈ ?l)] |- _ =>
        let b := eval vm_compute in (bool_decide (e ∈ l)) in
        change (bool_decide (e ∈ l)) with b in H
    | H : ∃ _, _ |- _ => destruct H
    | H : _ ∧ _ |- _ => destruct H
    | H : may_run ?p _ _ |- _ =>
        match p with
        | context [match ?e with _ => _ end] => is_var e; destruct e
        | context [negb ?b] => is_var b; destruct b
        | context [if ?b then _ else _] => is_var b; destruct b
        end
    end);
  cbn in *; simplify_eq.

(** Membership of an answered call in a trace that is written out. *)
Ltac in_trace :=
  unfold ok in *;
  repeat match goal with
         | H : ∃ _, _ |- _ => destruct H
         end;
  rewrite ?elem_of_cons, ?elem_of_nil in *;
  repeat match goal with
         | H : _ ∨ _ |- _ => destruct H
         end;
  simplify_eq.

Section HandlerFacts.
Variables (s : Server) (r : http.Request).

(** X1.  [Server.Get] on the service: a present state record is answered
    200 with the stored payload as body, an absent one 404 with the text
    of [ErrNotExist], a failed read or connect 500 with the text of the
    error. *)
Theorem Server_Get_responses (σ : nodes) :
  let znode := statePath (http.Param_name r) in
  let G := λ fs, result (run (Server_Get s r) fs σ) in
  (∀ n rest, σ !! znode = Some n →
     G (None :: None :: rest)
       = [ http.WriteHeader 200;
           http.HeaderSet "Content-Type" "application/json";
           http.Write (payload n) ])
  ∧ (∀ rest, σ !! znode = None →
     G (None :: None :: rest)
       = http.WriteHeader 404 :: fmt_Fprintf (Error ErrNotExist))
  ∧ (∀ ft rest,
     G (None :: Some ft :: rest)
       = http.WriteHeader 500 :: fmt_Fprintf (Error ErrRead))
  ∧ (∀ ft rest,
     G (Some ft :: rest) = http.WriteHeader 500 :: fmt_Fprintf (Error ErrConn)).
Proof.
  intros znode G. subst znode G. unfold Server_Get, Get, defer, statePath.
  repeat apply conj.
  - intros n rest Hn. handler_cases; by simplify_eq.
  - intros rest Hn. handler_cases; by simplify_eq.
  - intros ft rest. by handler_cases.
  - intros ft rest. by handler_cases.
Qed.

End HandlerFacts.

Lemma Server_Get_responses_witness :
  result (run (Server_Get (NewServer ["zk1:2181"])
                 {| http.Param_name := "tf"; http.Body := None |})
              [None; None]
              {[ "/tf" := {| payload := infoA; version := 0 |} ]})
    = [ http.WriteHeader 200;
        http.HeaderSet "Content-Type" "application/json";
        http.Write infoA ]
  ∧ status_written
      (result (run (Server_Get (NewServer ["zk1:2181"])
                      {| http.Param_name := "tf"; http.Body := None |})
                   [None; None] ∅))
    = Some 404.
Proof.
  split.
  - destruct (Server_Get_responses (NewServer ["zk1:2181"])
                {| http.Param_name := "tf"; http.Body := None |}
                {[ "/tf" := {| payload := infoA; version := 0 |} ]})
      as [H _].
    apply (H {| payload := infoA; version := 0 |} []). reflexivity.
  - destruct (Server_Get_responses (NewServer ["zk1:2181"])
                {| http.Param_name := "tf"; http.Body := None |} ∅)
      as (_ & H & _).
    rewrite (H []); reflexivity.
Defined.

Section HandlerFacts2.
Variables (s : Server) (r : http.Request).

(** X2.  Whatever the service answers, [Server.Get] and [Server.Lock]
    write a status first: 200, 404 or 500 for [Get]; 200, 423 or 500 for
    [Lock]. *)
Theorem Server_Get_Lock_always_answer :
  (∀ ws, may_return (Server_Get s r) ws →
     status_written ws = Some 200 ∨ status_written ws = Some 404
     ∨ status_written ws = Some 500)
  ∧ (∀ ws, may_return (Server_Lock s r) ws →
     status_written ws = Some 200 ∨ status_written ws = Some 423
     ∨ status_written ws = Some 500).
Proof.
  split; intros ws [t Hr].
  - unfold Server_Get, Get, defer in Hr. handler_returns; auto.
  - unfold Server_Lock, Lock, defer in Hr.
    destruct (http.Body r); handler_returns; auto.
Qed.

(** X3.  [Server.Update] on the service, the body [state] having been
    read: when no call fails the answer is 204 without body and the state
    record holds [state]; a failed connect, existence check or creation
    is answered 500 with the text of the error; when the set of an
    existing record fails, nothing at all is written to the response and
    the record is as before. *)
Theorem Server_Update_responses (σ : nodes) (state : bytes) :
  http.Body r = Some state →
  let znode := statePath (http.Param_name r) in
  let U := λ fs, run (Server_Update s r) fs σ in
  (∀ rest,
     result (U (None :: None :: None :: rest)) = [http.WriteHeader 204]
     ∧ ∃ v, final (U (None :: None :: None :: rest)) !! znode
            = Some {| payload := state; version := v |})
  ∧ (∀ ft rest,
     result (U (Some ft :: rest))
       = http.WriteHeader 500 :: fmt_Fprintf (Error ErrConn))
  ∧ (∀ ft rest,
     result (U (None :: Some ft :: rest))
       = http.WriteHeader 500 :: fmt_Fprintf (Error ErrRead))
  ∧ (∀ ft rest, σ !! znode = None →
     result (U (None :: None :: Some ft :: rest))
       = http.WriteHeader 500 :: fmt_Fprintf (Error ErrCreate))
  ∧ (∀ n ft rest, σ !! znode = Some n →
     result (U (None :: None :: Some ft :: rest)) = []
     ∧ final (U (None :: None :: Some ft :: rest)) = σ).
Proof.
  intros Hbody znode U. subst znode U.
  unfold Server_Update, Update, defer, statePath. rewrite Hbody.
  repeat apply conj.
  - intros rest. handler_cases; simplify_eq;
      (split; [done | eexists; by rewrite lookup_insert_eq]).
  - intros ft rest. by handler_cases.
  - intros ft rest. by handler_cases.
  - intros ft rest Hn. handler_cases; by simplify_eq.
  - intros n ft rest Hn. handler_cases; by simplify_eq.
Qed.

(** X4.  Whatever the service answers, [Server.Update] writes nothing to
    the response exactly when the store's set was answered an error;
    otherwise it writes 204 or 500 first.  When the body cannot be read
    it makes no call on the service and writes 500 without body. *)
Theorem Server_Update_silent_on_failed_set
    (t : list answered) (ws : list http.wcall) :
  may_run (Server_Update s r) t ws →
  (ws = [] ↔ ∃ p d v e, (CallSet p d v, Some e) ∈ t)
  ∧ (ws = [] ∨ status_written ws = Some 204 ∨ status_written ws = Some 500)
  ∧ (http.Body r = None → t = [] ∧ ws = [http.WriteHeader 500]).
Proof.
  unfold Server_Update, Update, defer, ok. intros Hr.
  destruct (http.Body r) as [state|]; handler_returns;
    (split; [split; [intros ?; simplify_eq;
                       eauto 8 using list_elem_of_here, list_elem_of_further
                    | intros ?; in_trace; done]
            | split; [cbn; auto | intros ?; by simplify_eq]]).
Qed.

End HandlerFacts2.


Lemma Server_Get_Lock_always_answer_witness :
  status_written
    (result (run (Server_Lock (NewServer ["zk1:2181"])
                    {| http.Param_name := "tf"; http.Body := Some infoB |})
                 [] (held "tf" infoA))) = Some 200
  ∨ status_written
      (result (run (Server_Lock (NewServer ["zk1:2181"])
                      {| http.Param_name := "tf"; http.Body := Some infoB |})
                   [] (held "tf" infoA))) = Some 423
  ∨ status_written
      (result (run (Server_Lock (NewServer ["zk1:2181"])
                      {| http.Param_name := "tf"; http.Body := Some infoB |})
                   [] (held "tf" infoA))) = Some 500.
Proof.
  destruct (Server_Get_Lock_always_answer (NewServer ["zk1:2181"])
              {| http.Param_name := "tf"; http.Body := Some infoB |})
    as [_ H].
  apply H. apply run_may_return.
Defined.

Lemma Server_Update_responses_witness :
  result (run (Server_Update (NewServer ["zk1:2181"])
                 {| http.Param_name := "tf"; http.Body := Some infoB |})
              [None; None; Some zk.ConnectionClosed]
              {[ "/tf" := {| payload := infoA; version := 0 |} ]})
    = []
  ∧ result (run (Server_Update (NewServer ["zk1:2181"])
                   {| http.Param_name := "tf"; http.Body := Some infoB |})
                [None; None; None] ∅)
    = [http.WriteHeader 204].
Proof.
  split.
  - destruct (Server_Update_responses (NewServer ["zk1:2181"])
                {| http.Param_name := "tf"; http.Body := Some infoB |}
                {[ "/tf" := {| payload := infoA; version := 0 |} ]} infoB
                eq_refl) as (_ & _ & _ & _ & H).
    apply (H {| payload := infoA; version := 0 |} zk.ConnectionClosed []).
    reflexivity.
  - destruct (Server_Update_responses (NewServer ["zk1:2181"])
                {| http.Param_name := "tf"; http.Body := Some infoB |}
                ∅ infoB eq_refl) as (H & _).
    apply (H []).
Defined.

Lemma Server_Update_silent_on_failed_set_witness :
  result (run (Server_Update (NewServer ["zk1:2181"])
                 {| http.Param_name := "tf"; http.Body := Some infoB |})
              [None; None; Some zk.SessionExpired]
              {[ "/tf" := {| payload := infoA; version := 0 |} ]}) = []
  ↔ ∃ p d v e,
      (CallSet p d v, Some e)
      ∈ calls (run (Server_Update (NewServer ["zk1:2181"])
                      {| http.Param_name := "tf"; http.Body := Some infoB |})
                   [None; None; Some zk.SessionExpired]
                   {[ "/tf" := {| payload := infoA; version := 0 |} ]}).
Proof.
  apply (Server_Update_silent_on_failed_set (NewServer ["zk1:2181"])
           {| http.Param_name := "tf"; http.Body := Some infoB |}).
  apply run_may_run.
Defined.

Section HandlerFacts3.
Variables (s : Server) (r : http.Request).

(** X5.  [Server.Delete] and [Server.Unlock] on the service: a node that
    is there is deleted and answered 200 without body; an absent node is
    answered 500, not 404, with the text of [ErrNotExist]; a failed
    delete or connect is answered 500 with the text of the error; when
    the existence check fails nothing at all is written to the
    response. *)
Theorem Server_Delete_Unlock_responses (σ : nodes) :
  let name := http.Param_name r in
  let D := λ fs, run (Server_Delete s r) fs σ in
  let U := λ fs, run (Server_Unlock s r) fs σ in
  (∀ n rest, σ !! statePath name = Some n →
     result (D (None :: None :: None :: rest)) = [http.WriteHeader 200]
     ∧ final (D (None :: None :: None :: rest)) = delete (statePath name) σ)
  ∧ (∀ n rest, σ !! lockPath name = Some n →
     result (U (None :: None :: None :: rest)) = [http.WriteHeader 200]
     ∧ final (U (None :: None :: None :: rest)) = delete (lockPath name) σ)
  ∧ (∀ rest, σ !! statePath name = None →
     result (D (None :: None :: rest))
       = http.WriteHeader 500 :: fmt_Fprintf (Error ErrNotExist))
  ∧ (∀ rest, σ !! lockPath name = None →
     result (U (None :: None :: rest))
       = http.WriteHeader 500 :: fmt_Fprintf (Error ErrNotExist))
  ∧ (∀ n ft rest, σ !! statePath name = Some n →
     result (D (None :: None :: Some ft :: rest))
       = http.WriteHeader 500 :: fmt_Fprintf (Error ErrDelete))
  ∧ (∀ n ft rest, σ !! lockPath name = Some n →
     result (U (None :: None :: Some ft :: rest))
       = http.WriteHeader 500 :: fmt_Fprintf (Error ErrDelete))
  ∧ (∀ ft rest,
     result (D (None :: Some ft :: rest)) = []
     ∧ result (U (None :: Some ft :: rest)) = [])
  ∧ (∀ ft rest,
     result (D (Some ft :: rest))
       = http.WriteHeader 500 :: fmt_Fprintf (Error ErrConn)
     ∧ result (U (Some ft :: rest))
       = http.WriteHeader 500 :: fmt_Fprintf (Error ErrConn)).
Proof.
  intros name D U. subst name D U.
  unfold Server_Delete, Server_Unlock, Delete, Unlock, defer,
    statePath, lockPath.
  repeat apply conj.
  - intros n rest Hn. handler_cases; by simplify_eq.
  - intros n rest Hn. handler_cases; by simplify_eq.
  - intros rest Hn. handler_cases; by simplify_eq.
  - intros rest Hn. handler_cases; by simplify_eq.
  - intros n ft rest Hn. handler_cases; by simplify_eq.
  - intros n ft rest Hn. handler_cases; by simplify_eq.
  - intros ft rest. by handler_cases.
  - intros ft rest. by handler_cases.
Qed.

(** X6.  Whatever the service answers, [Server.Delete] and
    [Server.Unlock] never write 404: the status is 200 or 500, or nothing
    is written, and nothing is written exactly when the existence check
    was answered an error. *)
Theorem Server_Delete_Unlock_never_404
    (t : list answered) (ws : list http.wcall) :
  may_run (Server_Delete s r) t ws ∨ may_run (Server_Unlock s r) t ws →
  status_written ws ≠ Some 404
  ∧ (ws = [] ∨ status_written ws = Some 200 ∨ status_written ws = Some 500)
  ∧ (ws = [] ↔ ∃ p e, (CallExists p, Some e) ∈ t).
Proof.
  unfold Server_Delete, Server_Unlock, Delete, Unlock, defer.
  intros [Hr|Hr]; handler_returns;
    (split; [done|]; split; [cbn; auto|];
     split; [intros ?; simplify_eq;
               eauto 8 using list_elem_of_here, list_elem_of_further
            | intros ?; in_trace; done]).
Qed.

(** X7.  [Server.Lock] on the service, the body [lockinfo] having been
    read: on a free name the lock record is created and the answer is 200
    with [lockinfo] as body; on a held name the answer is 423 with the
    holder's lockinfo as body and the record is as before; a failed
    connect, existence check, read or creation is answered 500 with the
    text of the error. *)
Theorem Server_Lock_responses (σ : nodes) (lockinfo : bytes) :
  http.Body r = Some lockinfo →
  let znode := lockPath (http.Param_name r) in
  let L := λ fs, run (Server_Lock s r) fs σ in
  (∀ rest, σ !! znode = None →
     result (L (None :: None :: None :: rest))
       = [ http.WriteHeader 200;
           http.HeaderSet "Content-Type" "application/json";
           http.Write lockinfo ]
     ∧ final (L (None :: None :: None :: rest))
       = <[znode := {| payload := lockinfo; version := 0 |}]> σ)
  ∧ (∀ n rest, σ !! znode = Some n →
     result (L (None :: None :: None :: rest))
       = [ http.WriteHeader 423;
           http.HeaderSet "Content-Type" "application/json";
           http.Write (payload n) ]
     ∧ final (L (None :: None :: None :: rest)) = σ)
  ∧ (∀ ft rest,
     result (L (Some ft :: rest))
       = http.WriteHeader 500 :: fmt_Fprintf (Error ErrConn))
  ∧ (∀ ft rest,
     result (L (None :: Some ft :: rest))
       = http.WriteHeader 500 :: fmt_Fprintf (Error ErrRead))
  ∧ (∀ n ft rest, σ !! znode = Some n →
     result (L (None :: None :: Some ft :: rest))
       = http.WriteHeader 500 :: fmt_Fprintf (Error ErrRead))
  ∧ (∀ ft rest, σ !! znode = None →
     result (L (None :: None :: Some ft :: rest))
       = http.WriteHeader 500 :: fmt_Fprintf (Error ErrCreate)).
Proof.
  intros Hbody znode L. subst znode L.
  unfold Server_Lock, Lock, defer, lockPath. rewrite Hbody.
  repeat apply conj.
  - intros rest Hn. handler_cases; by simplify_eq.
  - intros n rest Hn. handler_cases; by simplify_eq.
  - intros ft rest. by handler_cases.
  - intros ft rest. by handler_cases.
  - intros n ft rest Hn. handler_cases; by simplify_eq.
  - intros ft rest Hn. handler_cases; by simplify_eq.
Qed.

End HandlerFacts3.

Lemma Server_Delete_Unlock_responses_witness :
  result (run (Server_Delete (NewServer ["zk1:2181"])
                 {| http.Param_name := "tf"; http.Body := None |})
              [None; None] ∅)
    = http.WriteHeader 500 :: fmt_Fprintf (Error ErrNotExist)
  ∧ result (run (Server_Unlock (NewServer ["zk1:2181"])
                   {| http.Param_name := "tf"; http.Body := None |})
                [None; None; None] (held "tf" infoA))
    = [http.WriteHeader 200].
Proof.
  split.
  - destruct (Server_Delete_Unlock_responses (NewServer ["zk1:2181"])
                {| http.Param_name := "tf"; http.Body := None |} ∅)
      as (_ & _ & H & _).
    apply (H []). reflexivity.
  - destruct (Server_Delete_Unlock_responses (NewServer ["zk1:2181"])
                {| http.Param_name := "tf"; http.Body := None |}
                (held "tf" infoA)) as (_ & H & _).
    apply (H {| payload := infoA; version := 0 |} []). reflexivity.
Defined.

Lemma Server_Delete_Unlock_never_404_witness :
  status_written
    (result (run (Server_Delete (NewServer ["zk1:2181"])
                    {| http.Param_name := "tf"; http.Body := None |})
                 [] ∅)) ≠ Some 404.
Proof.
  apply (Server_Delete_Unlock_never_404 (NewServer ["zk1:2181"])
           {| http.Param_name := "tf"; http.Body := None |}
           (calls (run (Server_Delete (NewServer ["zk1:2181"])
                          {| http.Param_name := "tf"; http.Body := None |})
                       [] ∅))).
  left. apply run_may_run.
Defined.

Lemma Server_Lock_responses_witness :
  result (run (Server_Lock (NewServer ["zk1:2181"])
                 {| http.Param_name := "tf"; http.Body := Some infoB |})
              [None; None; None] (held "tf" infoA))
    = [ http.WriteHeader 423;
        http.HeaderSet "Content-Type" "application/json";
        http.Write infoA ].
Proof.
  destruct (Server_Lock_responses (NewServer ["zk1:2181"])
              {| http.Param_name := "tf"; http.Body := Some infoB |}
              (held "tf" infoA) infoB eq_refl) as (_ & H & _).
  apply (H {| payload := infoA; version := 0 |} []). reflexivity.
Defined.

(** X8.  Whenever a handler sets a header, it has called [w.WriteHeader]
    first: the only header set is [Content-Type], by [Server.Get] and
    [Server.Lock], and in their responses the first call on the
    [ResponseWriter] is [WriteHeader]. *)
Theorem headers_set_after_status
    (s : Server) (r : http.Request) (ws : list http.wcall)
    (key value : string) :
  may_return (Server_Get s r) ws ∨ may_return (Server_Update s r) ws
  ∨ may_return (Server_Delete s r) ws ∨ may_return (Server_Lock s r) ws
  ∨ may_return (Server_Unlock s r) ws →
  http.HeaderSet key value ∈ ws →
  (key, value) = ("Content-Type", "application/json")
  ∧ ∃ code rest, ws = http.WriteHeader code :: rest
                 ∧ http.HeaderSet key value ∈ rest.
Proof.
  unfold Server_Get, Server_Update, Server_Delete, Server_Lock,
    Server_Unlock, Get, Update, Delete, Lock, Unlock, defer, fmt_Fprintf.
  intros Hr Hin.
  destruct Hr as [[t Hr]|[[t Hr]|[[t Hr]|[[t Hr]|[t Hr]]]]];
    destruct (http.Body r); handler_returns;
    rewrite ?elem_of_cons, ?elem_of_nil in Hin;
    repeat match goal with H : _ ∨ _ |- _ => destruct H end;
    simplify_eq; try done;
    (split; [done|]; eexists _, _; split; [done|];
     eauto using list_elem_of_here, list_elem_of_further).
Qed.

Lemma headers_set_after_status_witness :
  ∃ code rest,
    result (run (Server_Get (NewServer ["zk1:2181"])
                   {| http.Param_name := "tf"; http.Body := None |})
                [] {[ "/tf" := {| payload := infoA; version := 0 |} ]})
      = http.WriteHeader code :: rest
    ∧ http.HeaderSet "Content-Type" "application/json" ∈ rest.
Proof.
  apply (headers_set_after_status (NewServer ["zk1:2181"])
           {| http.Param_name := "tf"; http.Body := None |}).
  - left. apply run_may_return.
  - vm_compute. apply list_elem_of_further, list_elem_of_here.
Defined.

(** Case analysis over operations run one after the other: as
    [handler_cases], with the lookups in a node space that was just
    written or deleted from. *)
Ltac sequence_cases :=
  repeat (cbn in *;
    first
      [ rewrite lookup_insert_eq
      | rewrite lookup_delete_eq
      | rewrite lookup_insert_ne by done
      | rewrite lookup_delete_ne by done
      | match goal with
        | H : ?s !! ?k = _ |- context [?s !! ?k] => rewrite H
        | |- context [bool_decide (?e ∈ ?l)] =>
            let b := eval vm_compute in (bool_decide (e ∈ l)) in
            change (bool_decide (e ∈ l)) with b
        | |- context [fault_at ?fs] => destruct (fault_at fs) eqn:?
        | |- context [@lookup _ _ (gmap string Node) _ ?k ?s] =>
            is_var s; destruct (s !! k) eqn:?
        | |- context [bool_decide (?x = ?x)] =>
            rewrite (bool_decide_eq_true_2 (x = x) eq_refl)
        | |- context [bool_decide (_ = _)] => case_bool_decide
        end ]);
  cbn in *.

(** X9.  A [POST] that is answered 204 followed by a [GET] of the same
    name, served by any instance of the server, is answered 200 with the
    posted bytes as body. *)
Theorem POST_then_GET_roundtrip
    (s1 s2 : Server) (name : string) (state : bytes) (body : option bytes)
    (fs rest : script) (σ : nodes) :
  let post := run (Server_Update s1
                     {| http.Param_name := name; http.Body := Some state |})
                  fs σ in
  let get := run (Server_Get s2
                    {| http.Param_name := name; http.Body := body |})
                 (None :: None :: rest) (final post) in
  status_written (result post) = Some 204 →
  result get = [ http.WriteHeader 200;
                 http.HeaderSet "Content-Type" "application/json";
                 http.Write state ].
Proof.
  unfold Server_Update, Server_Get, Update, Get, defer.
  sequence_cases; intros; by simplify_eq.
Qed.

Lemma POST_then_GET_roundtrip_witness :
  result (run (Server_Get (NewServer ["zk2:2181"])
                 {| http.Param_name := "tf"; http.Body := None |})
              [None; None]
              (final (run (Server_Update (NewServer ["zk1:2181"])
                             {| http.Param_name := "tf";
                                http.Body := Some infoA |}) [] ∅)))
    = [ http.WriteHeader 200;
        http.HeaderSet "Content-Type" "application/json";
        http.Write infoA ].
Proof.
  apply (POST_then_GET_roundtrip (NewServer ["zk1:2181"])
           (NewServer ["zk2:2181"]) "tf" infoA None [] [] ∅).
  reflexivity.
Defined.

(** X10.  The lock protocol over HTTP, no call failing, on a name whose
    lock record is absent: [LOCK] with body [infoA] is answered 200 with
    [infoA]; a second [LOCK] with body [infoB] is answered 423 with
    [infoA]; [UNLOCK] is answered 200 and removes the record; a third
    [LOCK] with body [infoC] is then answered 200 with [infoC]. *)
Theorem LOCK_UNLOCK_protocol
    (s : Server) (name : string) (infoA infoB infoC : bytes) (σ : nodes) :
  σ !! lockPath name = None →
  let rq := λ body, {| http.Param_name := name; http.Body := body |} in
  let o1 := run (Server_Lock s (rq (Some infoA))) [] σ in
  let o2 := run (Server_Lock s (rq (Some infoB))) [] (final o1) in
  let o3 := run (Server_Unlock s (rq None)) [] (final o2) in
  let o4 := run (Server_Lock s (rq (Some infoC))) [] (final o3) in
  (status_written (result o1), body_written (result o1)) = (Some 200, infoA)
  ∧ (status_written (result o2), body_written (result o2)) = (Some 423, infoA)
  ∧ result o3 = [http.WriteHeader 200]
  ∧ final o3 !! lockPath name = None
  ∧ (status_written (result o4), body_written (result o4)) = (Some 200, infoC).
Proof.
  intros Hfree. unfold lockPath in Hfree.
  unfold Server_Lock, Server_Unlock, Lock, Unlock, defer, lockPath.
  sequence_cases. by rewrite ?app_nil_r.
Qed.

Lemma LOCK_UNLOCK_protocol_witness :
  (status_written
     (result (run (Server_Lock (NewServer ["zk1:2181"])
                     {| http.Param_name := "tf"; http.Body := Some infoB |})
                  []
                  (final (run (Server_Lock (NewServer ["zk1:2181"])
                                 {| http.Param_name := "tf";
                                    http.Body := Some infoA |}) [] ∅)))),
   body_written
     (result (run (Server_Lock (NewServer ["zk1:2181"])
                     {| http.Param_name := "tf"; http.Body := Some infoB |})
                  []
                  (final (run (Server_Lock (NewServer ["zk1:2181"])
                                 {| http.Param_name := "tf";
                                    http.Body := Some infoA |}) [] ∅)))))
  = (Some 423, infoA).
Proof.
  assert (Hfree : (∅ : nodes) !! lockPath "tf" = None) by reflexivity.
  destruct (LOCK_UNLOCK_protocol (NewServer ["zk1:2181"]) "tf"
              infoA infoB infoA ∅ Hfree) as (_ & H & _).
  exact H.
Defined.

(** X11.  The errors each store operation can return, whatever the
    service answers: [Get] returns nil, [ErrConn], [ErrNotExist] or
    [ErrRead]; [Update] nil, [ErrConn], [ErrRead], [ErrCreate] or
    [ErrUpdate]; [Delete] and [Unlock] nil, [ErrConn], [ErrRead],
    [ErrNotExist] or [ErrDelete]; [Lock] nil, [ErrConn], [ErrRead] or
    [ErrCreate].  No operation returns [ErrWrite]. *)
Theorem store_error_taxonomy
    (store : StateStore) (o : op) (err : option error) :
  may_return (perform store o) err →
  err ≠ Some ErrWrite
  ∧ err ∈ match o with
          | OpGet _ => [None; Some ErrConn; Some ErrNotExist; Some ErrRead]
          | OpUpdate _ _ =>
              [None; Some ErrConn; Some ErrRead; Some ErrCreate;
               Some ErrUpdate]
          | OpDelete _ | OpUnlock _ =>
              [None; Some ErrConn; Some ErrRead; Some ErrNotExist;
               Some ErrDelete]
          | OpLock _ _ => [None; Some ErrConn; Some ErrRead; Some ErrCreate]
          end.
Proof.
  intros [t Hr].
  destruct o; unfold perform, Get, Update, Delete, Lock, Unlock, defer in Hr;
    returns_cases; simplify_eq;
    (split; [done | eauto 6 using list_elem_of_here, list_elem_of_further]).
Qed.

Lemma store_error_taxonomy_witness :
  result (run (perform zks0 (OpDelete "tf")) [] ∅)
  ∈ [None; Some ErrConn; Some ErrRead; Some ErrNotExist; Some ErrDelete].
Proof.
  apply (store_error_taxonomy zks0 (OpDelete "tf")).
  apply run_may_return.
Defined.

(** X12.  An operation changes no node but the one its name maps to:
    every other path of the node space holds after the operation what it
    held before, whichever calls fail. *)
Theorem operation_touches_only_its_node
    (store : StateStore) (o : op) (fs : script) (σ : nodes) (q : string) :
  q ≠ op_path o →
  final (run (perform store o) fs σ) !! q = σ !! q.
Proof.
  intros Hq.
  destruct o; unfold op_path, statePath, lockPath in Hq;
    unfold perform, Get, Update, Delete, Lock, Unlock, defer;
    run_cases; by rewrite ?lookup_insert_ne, ?lookup_delete_ne.
Qed.

Lemma operation_touches_only_its_node_witness :
  final (run (perform zks0 (OpDelete "tf")) []
             {[ "/tf" := {| payload := infoA; version := 0 |};
                "/lock-tf" := {| payload := infoB; version := 0 |} ]})
    !! "/lock-tf"
  = ({[ "/tf" := {| payload := infoA; version := 0 |};
        "/lock-tf" := {| payload := infoB; version := 0 |} ]} : nodes)
      !! "/lock-tf".
Proof.
  apply (operation_touches_only_its_node zks0 (OpDelete "tf")).
  discriminate.
Defined.

(** X13.  The life of a state record, no call failing, from any node
    space: after [Update(name, p1)] and [Update(name, p2)], [Get(name)]
    returns [p2]; after a [Delete(name)] that follows, [Get(name)]
    returns [ErrNotExist] and [Delete(name)] returns [ErrNotExist]. *)
Theorem state_record_lifecycle
    (store : StateStore) (name : string) (p1 p2 : bytes) (σ : nodes) :
  let σ1 := final (run (Update store name p1) [] σ) in
  let σ2 := final (run (Update store name p2) [] σ1) in
  let σ3 := final (run (Delete store name) [] σ2) in
  result (run (Update store name p1) [] σ) = None
  ∧ result (run (Update store name p2) [] σ1) = None
  ∧ result (run (Get store name) [] σ2) = (p2, None)
  ∧ result (run (Delete store name) [] σ2) = None
  ∧ (result (run (Get store name) [] σ3)).2 = Some ErrNotExist
  ∧ result (run (Delete store name) [] σ3) = Some ErrNotExist.
Proof.
  unfold Update, Get, Delete, defer. by sequence_cases.
Qed.

(** X14.  Over HTTP the lock record of [name] can be rewritten through
    the state route: after [LOCK name] with body [infoA], a [POST] to the
    name ["lock-" + name] with body [infoB] is answered 204, and a new
    [LOCK name] is then answered 423 with [infoB] as the holder's
    lockinfo. *)
Theorem POST_rewrites_lock_record
    (s : Server) (name : string) (infoA infoB infoC : bytes) (σ : nodes) :
  σ !! lockPath name = None →
  let o1 := run (Server_Lock s {| http.Param_name := name;
                                  http.Body := Some infoA |}) [] σ in
  let o2 := run (Server_Update s {| http.Param_name := "lock-" +:+ name;
                                    http.Body := Some infoB |})
                [] (final o1) in
  let o3 := run (Server_Lock s {| http.Param_name := name;
                                  http.Body := Some infoC |})
                [] (final o2) in
  (status_written (result o1), body_written (result o1)) = (Some 200, infoA)
  ∧ result o2 = [http.WriteHeader 204]
  ∧ (status_written (result o3), body_written (result o3)) = (Some 423, infoB).
Proof.
  intros Hfree. unfold lockPath in Hfree.
  unfold Server_Lock, Server_Update, Lock, Update, defer.
  change ("/" +:+ "lock-" +:+ name) with ("/lock-" +:+ name).
  sequence_cases. by rewrite ?app_nil_r.
Qed.

Lemma POST_rewrites_lock_record_witness :
  result (run (Server_Update (NewServer ["zk1:2181"])
                 {| http.Param_name := "lock-" +:+ "tf";
                    http.Body := Some infoB |})
              []
              (final (run (Server_Lock (NewServer ["zk1:2181"])
                             {| http.Param_name := "tf";
                                http.Body := Some infoA |}) [] ∅)))
  = [http.WriteHeader 204].
Proof.
  assert (Hfree : (∅ : nodes) !! lockPath "tf" = None) by reflexivity.
  destruct (POST_rewrites_lock_record (NewServer ["zk1:2181"]) "tf"
              infoA infoB infoA ∅ Hfree) as (_ & H & _).
  exact H.
Defined.

(** * [main]: proofs *)

Lemma append_cons (c : ascii) (a b : string) :
  String c a +:+ b = String c (a +:+ b).
Proof. reflexivity. Qed.

Lemma strings_Split_nonempty (s : string) (sep : ascii) :
  strings_Split s sep ≠ [].
Proof.
  destruct s as [|c s]; cbn; [done|].
  destruct (Ascii.eqb c sep); [done|]. by destruct (strings_Split s sep).
Qed.

(** Splitting around a separator splits both sides. *)
Lemma strings_Split_app (a b : string) (sep : ascii) :
  strings_Split (a +:+ String sep b) sep
  = (strings_Split a sep ++ strings_Split b sep)%list.
Proof.
  induction a as [|c a IH].
  - change ("" +:+ String sep b) with (String sep b). cbn.
    by rewrite Ascii.eqb_refl.
  - rewrite append_cons. cbn. rewrite IH.
    destruct (Ascii.eqb c sep); [done|].
    pose proof (strings_Split_nonempty a sep).
    by destruct (strings_Split a sep).
Qed.

(** A string without separator is its only piece. *)
Lemma strings_Split_no_sep (s : string) (sep : ascii) :
  sep ∉ String.list_ascii_of_string s → strings_Split s sep = [s].
Proof.
  induction s as [|c s IH]; cbn; [done|].
  rewrite not_elem_of_cons. intros [Hc Hs].
  destruct (Ascii.eqb_spec c sep) as [->|_]; [done|]. by rewrite IH.
Qed.

(** No piece holds the separator. *)
Lemma strings_Split_pieces (s : string) (sep : ascii) :
  Forall (λ piece, sep ∉ String.list_ascii_of_string piece) (strings_Split s sep).
Proof.
  induction s as [|c s IH]; cbn.
  - repeat constructor. apply not_elem_of_nil.
  - destruct (Ascii.eqb_spec c sep) as [->|Hc].
    + constructor; [apply not_elem_of_nil | done].
    + destruct (strings_Split s sep) as [|piece pieces];
        [repeat constructor; cbn; rewrite not_elem_of_cons;
         split; [done | apply not_elem_of_nil]|].
      inversion IH; subst. constructor; [|done].
      cbn. rewrite not_elem_of_cons. split; [congruence | done].
Qed.

(** The loop of [main] keeps the pieces that are not empty, in order. *)
Lemma main_zks_filter (zksStr : string) :
  main_zks zksStr = filter (λ zk, zk ≠ "") (strings_Split zksStr ",").
Proof.
  unfold main_zks.
  assert (H : ∀ (l acc : list string),
            foldl (λ (zksList : list string) (zk : string),
                     if bool_decide (zk ≠ "") then (zksList ++ [zk])%list
                     else zksList) acc l
            = (acc ++ filter (λ zk, zk ≠ "") l)%list).
  { induction l as [|z l IH]; intros acc; cbn [foldl];
      [by rewrite filter_nil, app_nil_r|].
    rewrite IH. case_bool_decide.
    - rewrite filter_cons_True by done. by rewrite <- app_assoc.
    - subst z. by rewrite filter_cons_False by (intros Hn; by apply Hn). }
  by rewrite H.
Qed.

(** X15.  Every endpoint [main] passes to the server is non-empty and
    holds no comma, whatever the value of [ZKS]. *)
Theorem main_zks_endpoints (zksStr : string) :
  Forall (λ zk, zk ≠ "" ∧ ","%char ∉ String.list_ascii_of_string zk)
         (main_zks zksStr).
Proof.
  rewrite main_zks_filter. apply Forall_forall. intros zk Hzk.
  apply list_elem_of_filter in Hzk as [Hne Hin]. split; [done|].
  pose proof (strings_Split_pieces zksStr ",") as Hp.
  rewrite Forall_forall in Hp. by apply Hp.
Qed.

(** X16.  The value of [ZKS] is read piece by piece: the endpoints of
    [a,b] are those of [a] followed by those of [b].  So empty pieces
    (a leading, trailing or doubled comma, an empty value) add
    nothing. *)
Theorem main_zks_comma (a b : string) :
  main_zks (a +:+ "," +:+ b) = (main_zks a ++ main_zks b)%list.
Proof.
  rewrite !main_zks_filter.
  change ("," +:+ b) with (String "," b).
  by rewrite strings_Split_app, filter_app.
Qed.

(** X17.  Any list of endpoints that are non-empty and hold no comma is
    what [main] reads back from the list joined with commas. *)
Theorem main_zks_join (zks : list string) :
  Forall (λ zk, zk ≠ "" ∧ ","%char ∉ String.list_ascii_of_string zk) zks →
  main_zks (String.concat "," zks) = zks.
Proof.
  assert (Hone : ∀ zk, zk ≠ "" → ","%char ∉ String.list_ascii_of_string zk →
                       main_zks zk = [zk]).
  { intros zk Hne Hc. rewrite main_zks_filter, strings_Split_no_sep by done.
    by rewrite filter_cons_True. }
  induction zks as [|zk zks IH]; intros Hall; [done|].
  inversion Hall as [|? ? [Hne Hc] Hrest]; subst.
  destruct zks as [|zk' zks].
  - cbn. by apply Hone.
  - change (String.concat "," (zk :: zk' :: zks))
      with (zk +:+ "," +:+ String.concat "," (zk' :: zks)).
    rewrite !main_zks_filter.
    change ("," +:+ String.concat "," (zk' :: zks))
      with (String "," (String.concat "," (zk' :: zks))).
    rewrite strings_Split_app, filter_app, <- !main_zks_filter.
    rewrite IH by done. by rewrite Hone.
Qed.

Lemma main_zks_join_witness :
  main_zks (String.concat "," ["zk1:2181"; "zk2:2181"])
  = ["zk1:2181"; "zk2:2181"].
Proof.
  apply (main_zks_join ["zk1:2181"; "zk2:2181"]).
  apply (bool_decide_unpack _). vm_compute. exact I.
Defined.

(** * Concurrent [Lock]s on a held lock: proofs *)

Section HeldLockFacts.
Variables (store : StateStore) (name : string) (infos : list bytes).

Lemma held_inv_init (σ : nodes) (nd : Node) :
  held_inv store name infos σ nd [] (racing store name infos σ).
Proof.
  exists (replicate (length infos) PcStart). repeat split.
  - by cbn; rewrite length_fmap.
  - by rewrite length_replicate.
  - intros i info pc Hi Hpc. apply lookup_replicate in Hpc as [-> _].
    cbn. by rewrite list_lookup_fmap, Hi.
  - intros i pc Hpc. apply lookup_replicate in Hpc as [-> _]. by left.
  - intros i pc Hpc. by apply lookup_replicate in Hpc as [-> _].
Qed.

(** A [Lock] that is told the node is present moves on without changing
    the node space. *)
Lemma reader_step (σ : nodes) (nd : Node) (info : bytes) (pc : lock_pc) :
  σ !! lockPath name = Some nd →
  reader_at nd pc → calls_left pc ≠ 0%nat →
  ∃ a, step (at_pc store name info pc) None σ
         = Some (a, at_pc store name info (pc_step info (Some nd) pc).1, σ)
       ∧ reader_at nd (pc_step info (Some nd) pc).1.
Proof.
  intros Hnd. unfold lockPath in Hnd. unfold reader_at.
  intros [-> | [-> | [-> | [-> | ->]]]] Hleft; try done; cbn.
  - eexists. split; [done | auto].
  - unfold Lock_connected, Lock, defer. cbn. rewrite Hnd.
    eexists. split; [done | auto].
  - unfold Lock_checked, Lock_connected, Lock, defer. cbn. rewrite Hnd.
    eexists. split; [done | auto].
  - eexists. split; [done | auto 6].
Qed.

Lemma held_inv_step (σ : nodes) (nd : Node) (sched : list nat)
    (c : config lock_result) (i : nat) :
  σ !! lockPath name = Some nd →
  held_inv store name infos σ nd sched c →
  held_inv store name infos σ nd (sched ++ [i]) (sched_step c i).
Proof.
  intros Hheld (pcs & (Hlen & Hlenp & Htr) & Hsvc & Hread & Hprog).
  unfold sched_step.
  destruct (threads c !! i) as [p|] eqn:Hp.
  2: { exists pcs. repeat split; try done.
       intros j pc Hj. rewrite count_occ_snoc.
       destruct (decide (i = j)) as [->|Hne].
       - apply lookup_lt_Some in Hj. apply lookup_ge_None in Hp. lia.
       - rewrite Nat.add_0_r. eauto. }
  assert (Hi : (i < length infos)%nat)
    by (apply lookup_lt_Some in Hp; lia).
  destruct (lookup_lt_is_Some_2 infos i Hi) as [info Hinfo].
  assert (Hi' : (i < length pcs)%nat) by lia.
  destruct (lookup_lt_is_Some_2 pcs i Hi') as [pc Hpc].
  rewrite (Htr i info pc Hinfo Hpc) in Hp. simplify_eq.
  destruct (decide (calls_left pc = 0%nat)) as [Hz|Hnz].
  - destruct pc; try done. rewrite step_returned.
    exists pcs. repeat split; try done.
    intros j pc Hj. rewrite count_occ_snoc.
    destruct (decide (i = j)) as [->|Hne].
    + simplify_eq. specialize (Hprog j _ Hpc). cbn in *. lia.
    + rewrite Nat.add_0_r. eauto.
  - destruct (reader_step (svc c) nd info pc Hheld (Hread i pc Hpc) Hnz)
      as (a & Hstep & Hnext).
    rewrite Hstep.
    exists (<[i := (pc_step info (Some nd) pc).1]> pcs). repeat split.
    + by cbn; rewrite length_insert.
    + by rewrite length_insert.
    + intros j infoj pcj Hj. cbn.
      destruct (decide (i = j)) as [->|Hne].
      * rewrite !list_lookup_insert_eq by lia. intros; by simplify_eq.
      * rewrite !list_lookup_insert_ne by done. eauto.
    + intros j pcj. destruct (decide (i = j)) as [->|Hne].
      * rewrite list_lookup_insert_eq by lia. intros; by simplify_eq.
      * rewrite list_lookup_insert_ne by done. eauto.
    + intros j pcj. rewrite count_occ_snoc.
      destruct (decide (i = j)) as [->|Hne].
      * rewrite list_lookup_insert_eq by lia. intros; simplify_eq.
        rewrite calls_left_step. specialize (Hprog j pc Hpc). lia.
      * rewrite list_lookup_insert_ne by done. rewrite Nat.add_0_r. eauto.
Qed.

Lemma held_inv_run (σ : nodes) (nd : Node) (sched : list nat) :
  σ !! lockPath name = Some nd →
  held_inv store name infos σ nd sched
           (run_sched sched (racing store name infos σ)).
Proof.
  intros Hheld. induction sched as [|i sched IH] using rev_ind.
  - apply held_inv_init.
  - unfold run_sched. rewrite foldl_snoc. by apply held_inv_step.
Qed.

End HeldLockFacts.

(** X18.  Any number of [Lock(name, info_i)] calls running at once on a
    name whose lock is held, under any schedule that lets each make its
    four calls, no call failing: every call returns
    [alreadyLocked = true] with the holder's lockinfo and a [nil] error,
    and the node space is left exactly as it was. *)
Theorem Lock_on_held_lock_concurrent
    (store : StateStore) (name : string) (infos : list bytes) (σ : nodes)
    (nd : Node) (sched : list nat) :
  σ !! lockPath name = Some nd →
  (∀ i, (i < length infos)%nat → (4 ≤ count_occ Nat.eq_dec sched i)%nat) →
  let c := run_sched sched (racing store name infos σ) in
  svc c = σ
  ∧ ∀ i, (i < length infos)%nat →
      results c !! i = Some (Some (true, payload nd, None)).
Proof.
  intros Hheld Hfair c.
  destruct (held_inv_run store name infos σ nd sched Hheld)
    as (pcs & (Hlen & Hlenp & Htr) & Hsvc & Hread & Hprog).
  split; [done|]. intros i Hi.
  destruct (lookup_lt_is_Some_2 infos i Hi) as [info Hinfo].
  assert (Hi' : (i < length pcs)%nat) by lia.
  destruct (lookup_lt_is_Some_2 pcs i Hi') as [pc Hpc].
  unfold results. rewrite list_lookup_fmap.
  fold c in Htr. rewrite (Htr i info pc Hinfo Hpc).
  specialize (Hprog i pc Hpc). specialize (Hfair i Hi).
  destruct (Hread i pc Hpc) as [-> | [-> | [-> | [-> | ->]]]];
    cbn in *; try lia. done.
Qed.

Lemma Lock_on_held_lock_concurrent_witness :
  results (run_sched [0; 1; 1; 0; 0; 1; 1; 0]%nat
             (racing zks0 "tf" [infoB; infoB] (held "tf" infoA)))
    !! 1%nat
  = Some (Some (true, infoA, None)).
Proof.
  destruct (Lock_on_held_lock_concurrent zks0 "tf" [infoB; infoB]
              (held "tf" infoA) {| payload := infoA; version := 0 |}
              [0; 1; 1; 0; 0; 1; 1; 0]%nat) as [_ H].
  - reflexivity.
  - intros i Hi. destruct i as [|[|i]]; cbn in *; lia.
  - apply (H 1%nat). cbn. lia.
Defined.
